(** * Deja Cue: the quiz session core

    A shallow embedding of [src/lib/rekordbox-parser.ts] (the playlist tree
    and its flattening), [src/lib/audio-player.ts] (the playback controller)
    and [src/lib/quiz-engine.ts] (the quiz session), followed by the
    properties of the session that the specification states.

    Conventions of the embedding.
    - A JavaScript [number] is a rational ([Q]). The arithmetic of the start
      offset and the quotient of [formatTime] are rounded as binary64
      arithmetic rounds them ([Binary64]); positions and elapsed times of
      the player are compared and subtracted exactly. [Float64] evaluates
      the start offset on the machine's floating-point numbers, as a check
      of the rounding.
    - [Math.random()] and the answers of the collaborators the code awaits
      (the file-presence check, the media element) are inputs of the
      functions that consume them.
    - [Map<string, Track>] is the list of its entries in insertion order,
      [Set<string>] used only through [has]/[add]/[clear] is a [gset string],
      and an array is a list. *)

From Stdlib Require Import QArith Qround Qminmax Lqa.
From Stdlib Require PrimFloat FloatOps.
From stdpp Require Import gmap strings pretty list.

#[local] Set Warnings "-register-all".

(** ** rekordbox-parser.ts *)

Module Track.

Record t := mk {
  id : string;
  name : string;
  artist : string;
  album : string;
  location : string;
  duration : Q;
  bpm : option Q;
  key : option string;
  genre : option string
}.

End Track.

Module PlaylistNode.

Inductive kind := folder | playlist.

Inductive t := mk {
  name : string;
  type : kind;
  children : list t;
  trackIds : list string;
  isSmartPlaylist : option bool
}.

End PlaylistNode.

(** [new Set(ids)]: a JavaScript [Set] keeps its members in the order of
    their first insertion; [[...set]] lists them in that order. *)
Definition Set_add (s : list string) (x : string) : list string :=
  if decide (x ∈ s) then s else s ++ [x].

Definition Set_from (ids : list string) : list string :=
  foldl Set_add [] ids.

(** [getAllTrackIdsFromPlaylist]: the inner [fix] is the [for ... of
    node.children] loop pushing every child's ids onto [ids]. *)
Fixpoint getAllTrackIdsFromPlaylist (node : PlaylistNode.t) : list string :=
  match PlaylistNode.type node with
  | PlaylistNode.playlist => PlaylistNode.trackIds node
  | PlaylistNode.folder =>
      Set_from
        ((fix push (cs : list PlaylistNode.t) : list string :=
            match cs with
            | [] => []
            | child :: cs' => getAllTrackIdsFromPlaylist child ++ push cs'
            end) (PlaylistNode.children node))
  end.

(** [Map<string, Track>]: [get] finds the entry of a key, [keys()] lists the
    keys in insertion order. *)
Fixpoint Map_get (m : list (string * Track.t)) (k : string) : option Track.t :=
  match m with
  | [] => None
  | (k', v) :: m' => if decide (k = k') then Some v else Map_get m' k
  end.

Definition Map_keys (m : list (string * Track.t)) : list string := m.*1.

(** [arr[i]] for an integer [i]: [undefined] outside the array. *)
Definition Array_at {A} (arr : list A) (i : Z) : option A :=
  if (i <? 0)%Z then None else arr !! Z.to_nat i.

(** [Math.floor(r * n)] for the length [n] of an array. *)
Definition floor_scaled (r : Q) (n : nat) : Z :=
  Qfloor (r * inject_Z (Z.of_nat n)).

(** ** Numbers

    Arithmetic on binary64 numbers: the exact result, rounded to the nearest
    binary64 number, ties to the even significand. A finite binary64 number
    is a multiple of [2^-1074]; [exponent] is the binary exponent of the
    last place of a scaled value, 53 significant bits above [2^-1074] and
    one step of [2^-1074] below. Infinities and NaN are not numbers of the
    model: results are those of the code as long as they stay below
    [2^1024] in magnitude. *)
Module Binary64.

(** The nearest integer, ties to even. *)
Definition rne (q : Q) : Z :=
  let f := Qfloor q in
  match (q - inject_Z f ?= 1 # 2)%Q with
  | Lt => f
  | Gt => (f + 1)%Z
  | Eq => if Z.even f then f else (f + 1)%Z
  end.

Definition scale : Z := (2 ^ 1074)%Z.

Definition exponent (X : Q) : Z := (Z.log2 (Qfloor X) - 52) `max` 0.

(** [X] is a value in units of [2^-1074], not negative. *)
Definition roundScaled (X : Q) : Z :=
  let step := (2 ^ exponent X)%Z in
  (rne (X / inject_Z step) * step)%Z.

Definition roundNonneg (x : Q) : Q :=
  Qred (inject_Z (roundScaled (x * inject_Z scale)) / inject_Z scale).

Definition round (x : Q) : Q :=
  if Qle_bool 0 x then roundNonneg x else (- roundNonneg (- x))%Q.

Definition add (x y : Q) : Q := round (x + y).
Definition sub (x y : Q) : Q := round (x - y).
Definition mul (x y : Q) : Q := round (x * y).
Definition div (x y : Q) : Q := round (x / y).

End Binary64.

(** ** audio-player.ts *)

Module PlaybackState.

Record t := mk {
  isPlaying : bool;
  currentTime : Q;
  duration : Q;
  startOffset : Q;
  maxPlayTime : Q
}.

End PlaybackState.

(** The part of the [HTMLAudioElement] that the player reads and writes. *)
Module HTMLAudio.

Record t := mk {
  paused : bool;
  src : string;
  currentTime : Q;
  duration : Q
}.

Definition pause (a : t) : t := mk true (src a) (currentTime a) (duration a).
Definition play (a : t) : t := mk false (src a) (currentTime a) (duration a).
Definition set_src (x : string) (a : t) : t :=
  mk (paused a) x (currentTime a) (duration a).
Definition set_currentTime (x : Q) (a : t) : t :=
  mk (paused a) (src a) x (duration a).
Definition set_duration (d : Q) (a : t) : t :=
  mk (paused a) (src a) (currentTime a) d.

End HTMLAudio.

(** The [AudioPlayer] class. A method is a function on the player; a method
    that awaits the element ([load], [play]) takes the element's answer as
    an argument and includes the handlers the element runs before the
    awaited promise settles. The [pause] event that follows a [pause()]
    call is not awaited by any method: it arrives later, as [handlePause].
    [updateInterval] records whether an interval handle is stored. *)
Module AudioPlayer.

Record t := mk {
  audio : HTMLAudio.t;
  state : PlaybackState.t;
  updateInterval : bool
}.

Definition initialState : PlaybackState.t :=
  PlaybackState.mk false 0 0 0 30.

Definition new : t := mk (HTMLAudio.mk true "" 0 0) initialState false.

Definition set_audio (a : HTMLAudio.t) (p : t) : t :=
  mk a (state p) (updateInterval p).
Definition set_state (st : PlaybackState.t) (p : t) : t :=
  mk (audio p) st (updateInterval p).

Definition set_isPlaying (b : bool) (st : PlaybackState.t) : PlaybackState.t :=
  PlaybackState.mk b (PlaybackState.currentTime st) (PlaybackState.duration st)
    (PlaybackState.startOffset st) (PlaybackState.maxPlayTime st).
Definition set_currentTime (x : Q) (st : PlaybackState.t) : PlaybackState.t :=
  PlaybackState.mk (PlaybackState.isPlaying st) x (PlaybackState.duration st)
    (PlaybackState.startOffset st) (PlaybackState.maxPlayTime st).
Definition set_duration (d : Q) (st : PlaybackState.t) : PlaybackState.t :=
  PlaybackState.mk (PlaybackState.isPlaying st) (PlaybackState.currentTime st) d
    (PlaybackState.startOffset st) (PlaybackState.maxPlayTime st).

Definition startUpdateLoop (p : t) : t :=
  if updateInterval p then p else mk (audio p) (state p) true.

Definition stopUpdateLoop (p : t) : t :=
  if updateInterval p then mk (audio p) (state p) false else p.

Definition handlePlay (p : t) : t :=
  startUpdateLoop (set_state (set_isPlaying true (state p)) p).

Definition handlePause (p : t) : t :=
  stopUpdateLoop (set_state (set_isPlaying false (state p)) p).

Definition handleEnded (p : t) : t :=
  stopUpdateLoop (set_state (set_isPlaying false (state p)) p).

Definition handleLoadedMetadata (p : t) : t :=
  set_state (set_duration (HTMLAudio.duration (audio p)) (state p)) p.

Definition handleError (p : t) : t :=
  stopUpdateLoop (set_state (set_isPlaying false (state p)) p).

Definition pause (p : t) : t := set_audio (HTMLAudio.pause (audio p)) p.

(** The callback given to [setInterval] in [startUpdateLoop]; the timer runs
    it only while a handle is stored. *)
Definition tick (p : t) : t :=
  let elapsed :=
    (HTMLAudio.currentTime (audio p) - PlaybackState.startOffset (state p))%Q in
  let p1 := set_state (set_currentTime elapsed (state p)) p in
  if Qle_bool (PlaybackState.maxPlayTime (state p1)) elapsed then pause p1
  else p1.

Definition stop (p : t) : t :=
  let p1 := pause p in
  let p2 := set_audio (HTMLAudio.set_src "" (audio p1)) p1 in
  set_state initialState p2.

Section WithAssetUrl.

(** [convertFileSrc] of the Tauri API. *)
Variable convertFileSrc : string -> string.

(** [load]: [metadata] is the element's answer to [audio.load()], the
    duration it reports with [loadedmetadata], or [None] for its [error]
    event. The result says whether the promise resolved. *)
Definition load (filePath : string) (startOffset maxPlayTime : Q)
    (metadata : option Q) (p : t) : t * bool :=
  let p1 := stop p in
  let assetUrl := convertFileSrc filePath in
  let p2 :=
    set_state (PlaybackState.mk false 0 0 startOffset maxPlayTime) p1 in
  let p3 := set_audio (HTMLAudio.set_src assetUrl (audio p2)) p2 in
  match metadata with
  | Some d =>
      let p4 := handleLoadedMetadata
                  (set_audio (HTMLAudio.set_duration d (audio p3)) p3) in
      let p5 := set_audio (HTMLAudio.set_currentTime startOffset (audio p4)) p4 in
      (set_state (set_duration (HTMLAudio.duration (audio p5)) (state p5)) p5,
       true)
  | None => (handleError p3, false)
  end.

End WithAssetUrl.

(** [play]: [started] says whether [audio.play()] resolved; a rejection is
    caught and logged. *)
Definition play (started : bool) (p : t) : t :=
  if started then handlePlay (set_audio (HTMLAudio.play (audio p)) p) else p.

Definition toggle (started : bool) (p : t) : t :=
  if PlaybackState.isPlaying (state p) then pause p else play started p.

Definition getState (p : t) : PlaybackState.t := state p.

End AudioPlayer.

(** ** quiz-engine.ts *)

(** What one iteration of the retry loop of [nextTrack] receives from
    outside: the values of its two [Math.random()] calls, the answer of the
    file-presence check for a path, the element's answer to a load of a
    path, and whether the final [play()] started. *)
Module Attempt.

Record t := mk {
  randomDraw : Q;
  fileExists : string -> bool;
  randomStart : Q;
  metadata : string -> option Q;
  playStarted : bool
}.

End Attempt.

(** The [QuizEngine] class, together with the player singleton that
    [getAudioPlayer()] returns. The engine's subscription to the player,
    installed by the constructor, is [onPlayerState]: it runs at every
    notification of the player. The engine's own listeners only observe the
    state and are not part of it. *)
Module QuizEngine.

Record t := mk {
  tracks : list (string * Track.t);
  activeTrackIds : list string;
  currentTrack : option Track.t;
  isRevealed : bool;
  isLoading : bool;
  error : option string;
  playbackState : PlaybackState.t;
  usedTrackIds : gset string;
  player : AudioPlayer.t
}.

Definition new (tracks : list (string * Track.t)) (player : AudioPlayer.t) : t :=
  mk tracks (Map_keys tracks) None false false None
     (AudioPlayer.getState player) ∅ player.

Definition set_activeTrackIds (ids : list string) (s : t) : t :=
  mk (tracks s) ids (currentTrack s) (isRevealed s) (isLoading s) (error s)
     (playbackState s) (usedTrackIds s) (player s).
Definition set_currentTrack (c : option Track.t) (s : t) : t :=
  mk (tracks s) (activeTrackIds s) c (isRevealed s) (isLoading s) (error s)
     (playbackState s) (usedTrackIds s) (player s).
Definition set_isRevealed (b : bool) (s : t) : t :=
  mk (tracks s) (activeTrackIds s) (currentTrack s) b (isLoading s) (error s)
     (playbackState s) (usedTrackIds s) (player s).
Definition set_isLoading (b : bool) (s : t) : t :=
  mk (tracks s) (activeTrackIds s) (currentTrack s) (isRevealed s) b (error s)
     (playbackState s) (usedTrackIds s) (player s).
Definition set_error (e : option string) (s : t) : t :=
  mk (tracks s) (activeTrackIds s) (currentTrack s) (isRevealed s)
     (isLoading s) e (playbackState s) (usedTrackIds s) (player s).
Definition set_usedTrackIds (u : gset string) (s : t) : t :=
  mk (tracks s) (activeTrackIds s) (currentTrack s) (isRevealed s)
     (isLoading s) (error s) (playbackState s) u (player s).

(** The subscription callback: [this.playbackState = state]. *)
Definition onPlayerState (s : t) : t :=
  mk (tracks s) (activeTrackIds s) (currentTrack s) (isRevealed s)
     (isLoading s) (error s) (AudioPlayer.state (player s)) (usedTrackIds s)
     (player s).

(** A call of a player method that ends with a notification. *)
Definition withPlayer (f : AudioPlayer.t -> AudioPlayer.t) (s : t) : t :=
  onPlayerState
    (mk (tracks s) (activeTrackIds s) (currentTrack s) (isRevealed s)
        (isLoading s) (error s) (playbackState s) (usedTrackIds s)
        (f (player s))).

Definition getState (s : t)
    : option Track.t * bool * bool * option string * PlaybackState.t :=
  (currentTrack s, isRevealed s, isLoading s, error s, playbackState s).

Definition reset (s : t) : t :=
  let s := withPlayer AudioPlayer.stop s in
  let s := set_currentTrack None s in
  let s := set_isRevealed false s in
  let s := set_isLoading false s in
  let s := set_error None s in
  set_usedTrackIds ∅ s.

Definition setPlaylistFilter (playlist : option PlaylistNode.t) (s : t) : t :=
  let s :=
    match playlist with
    | None => set_activeTrackIds (Map_keys (tracks s)) s
    | Some node => set_activeTrackIds (getAllTrackIdsFromPlaylist node) s
    end in
  reset s.

(** [getRandomTrack]: [r] is the value of [Math.random()]. *)
Definition getRandomTrack (r : Q) (s : t) : option Track.t :=
  match activeTrackIds s with
  | [] => None
  | _ =>
      let randomIndex := floor_scaled r (length (activeTrackIds s)) in
      match Array_at (activeTrackIds s) randomIndex with
      | Some trackId => Map_get (tracks s) trackId
      | None => None
      end
  end.

(** [getRandomUnusedTrack]: [r] is the value of the one [Math.random()]
    call made on either path. *)
Definition getRandomUnusedTrack (r : Q) (s : t) : t * option Track.t :=
  let unusedIds :=
    filter (fun id => id ∉ usedTrackIds s) (activeTrackIds s) in
  match unusedIds with
  | [] =>
      let s := set_usedTrackIds ∅ s in
      (s, getRandomTrack r s)
  | _ =>
      let randomIndex := floor_scaled r (length unusedIds) in
      match Array_at unusedIds randomIndex with
      | Some trackId => (s, Map_get (tracks s) trackId)
      | None => (s, None)
      end
  end.

(** [getRandomStartPoint]: [r] is the value of [Math.random()]; the two
    products, the difference, the last product and the sum are each
    rounded. *)
Definition getRandomStartPoint (duration : Q) (r : Q) : Q :=
  let startRange := Binary64.mul duration 0.25 in
  let endRange := Binary64.mul duration 0.75 in
  let range := Binary64.sub endRange startRange in
  Binary64.add startRange (Binary64.mul r range).

Definition checkTrackExists (w : Attempt.t) (track : Track.t) : bool :=
  Attempt.fileExists w (Track.location track).

(** [this.usedTrackIds.add(id)]. *)
Definition markUsed (id : string) (s : t) : t :=
  set_usedTrackIds ({[id]} ∪ usedTrackIds s) s.

Definition reveal (s : t) : t :=
  match currentTrack s with
  | Some _ => set_isRevealed true s
  | None => s
  end.

Definition togglePlayback (started : bool) (s : t) : t :=
  withPlayer (AudioPlayer.toggle started) s.

Definition getActiveTrackCount (s : t) : nat := length (activeTrackIds s).
Definition getTotalTrackCount (s : t) : nat := length (tracks s).

Definition maxAttempts : nat := 10.

Section WithAssetUrl.

Variable convertFileSrc : string -> string.

(** Entry of [nextTrack], up to the [while]. *)
Definition nextTrack_enter (s : t) : t :=
  let s := set_isLoading true s in
  let s := set_error None s in
  withPlayer AudioPlayer.stop s.

(** One iteration of the [while] body: [inl] when it ends with
    [attempts++] (the loop goes on), [inr] when it returns. *)
Definition nextTrack_body (w : Attempt.t) (s : t) : t + t :=
  let '(s, track) := getRandomUnusedTrack (Attempt.randomDraw w) s in
  match track with
  | None =>
      let s := set_error (Some "No tracks available") s in
      inr (set_isLoading false s)
  | Some track =>
      if negb (checkTrackExists w track) then
        inl (markUsed (Track.id track) s)
      else
        let startOffset :=
          getRandomStartPoint (Track.duration track) (Attempt.randomStart w) in
        let '(p, loaded) :=
          AudioPlayer.load convertFileSrc (Track.location track) startOffset 30
            (Attempt.metadata w (Track.location track)) (player s) in
        let s := withPlayer (fun _ => p) s in
        if loaded then
          let s := set_currentTrack (Some track) s in
          let s := set_isRevealed false s in
          let s := markUsed (Track.id track) s in
          let s := set_isLoading false s in
          inr (withPlayer (AudioPlayer.play (Attempt.playStarted w)) s)
        else
          inl (markUsed (Track.id track) s)
  end.

(** After the loop has given up. *)
Definition nextTrack_exhausted (s : t) : t :=
  let s := set_error (Some "Could not find a playable track") s in
  let s := set_currentTrack None s in
  let s := set_isRevealed false s in
  set_isLoading false s.

(** The [while (attempts < maxAttempts)] loop; [remaining] is
    [maxAttempts - attempts], and [ws attempts] is what iteration number
    [attempts] receives. *)
Fixpoint nextTrack_loop (ws : nat -> Attempt.t) (remaining attempts : nat)
    (s : t) : t :=
  match remaining with
  | O => nextTrack_exhausted s
  | S remaining' =>
      match nextTrack_body (ws attempts) s with
      | inl s' => nextTrack_loop ws remaining' (S attempts) s'
      | inr s' => s'
      end
  end.

Definition nextTrack (ws : nat -> Attempt.t) (s : t) : t :=
  nextTrack_loop ws maxAttempts 0 (nextTrack_enter s).

End WithAssetUrl.

End QuizEngine.

(** * Vocabulary of the properties *)

Section Vocabulary.

Import QuizEngine.

(** The ids not yet used, as [getRandomUnusedTrack] computes them. *)
Definition unusedIds (s : QuizEngine.t) : list string :=
  filter (fun id => id ∉ usedTrackIds s) (activeTrackIds s).

(** The id that a draw binds to [trackId] before looking it up: taken from
    the unused ids, or from all the active ids when none is unused. *)
Definition selectedId (r : Q) (s : QuizEngine.t) : option string :=
  match unusedIds s with
  | [] =>
      match activeTrackIds s with
      | [] => None
      | _ => Array_at (activeTrackIds s)
               (floor_scaled r (length (activeTrackIds s)))
      end
  | _ => Array_at (unusedIds s) (floor_scaled r (length (unusedIds s)))
  end.

(** The track table is keyed by the tracks' own ids, as both ingestion paths
    build it ([tracks.set(track.id, track)]). *)
Definition keyedById (s : QuizEngine.t) : Prop :=
  forall k track, Map_get (tracks s) k = Some track -> Track.id track = k.

(** A draw whose result, when there is one, is marked used: what every
    iteration of [nextTrack] that gets a track does with it. The result is
    the id of the track drawn. *)
Definition drawAndMark (r : Q) (s : QuizEngine.t)
    : QuizEngine.t * option string :=
  let '(s, track) := getRandomUnusedTrack r s in
  match track with
  | Some track => (markUsed (Track.id track) s, Some (Track.id track))
  | None => (s, None)
  end.

(** The ids returned by successive draws, one per random value. *)
Fixpoint draws (rs : list Q) (s : QuizEngine.t) : list (option string) :=
  match rs with
  | [] => []
  | r :: rs' =>
      let '(s', o) := drawAndMark r s in
      o :: draws rs' s'
  end.

Variable convertFileSrc : string -> string.

(** The state in which iteration number [attempts + k] of the retry loop
    starts, when the loop is in state [s] at iteration [attempts] and the
    [k] iterations in between all end with [attempts++]. *)
Fixpoint attemptsFrom (ws : nat -> Attempt.t) (attempts k : nat)
    (s : QuizEngine.t) : option QuizEngine.t :=
  match k with
  | O => Some s
  | S k' =>
      match nextTrack_body convertFileSrc (ws attempts) s with
      | inl s' => attemptsFrom ws (S attempts) k' s'
      | inr _ => None
      end
  end.

(** The candidate drawn in state [s] is [track], and it fails: its file is
    reported missing, or the element rejects the load. *)
Definition candidateFails (w : Attempt.t) (s : QuizEngine.t)
    (track : Track.t) : Prop :=
  (getRandomUnusedTrack (Attempt.randomDraw w) s).2 = Some track
  /\ (checkTrackExists w track = false
      \/ Attempt.metadata w (Track.location track) = None).

End Vocabulary.

(** [getRandomStartPoint] on the machine's binary64 numbers, and the
    rational value of such a number. *)
Module Float64.

Import PrimFloat.

Definition getRandomStartPoint (duration r : float) : float :=
  let startRange := (duration * 0.25)%float in
  let endRange := (duration * 0.75)%float in
  let range := (endRange - startRange)%float in
  (startRange + r * range)%float.

(** The largest binary64 number below one, [1 - 2^-53]. *)
Definition belowOne : float := 0x1.fffffffffffffp-1%float.

(** A duration and a random value whose products are not exact:
    [215.3] and [0.7], to the nearest binary64 number. *)
Definition sampleDuration : float := 0x1.ae9999999999ap+7%float.
Definition sampleRandom : float := 0x1.6666666666666p-1%float.

Definition toQ (x : float) : option Q :=
  match FloatOps.Prim2SF x with
  | SpecFloat.S754_zero _ => Some 0%Q
  | SpecFloat.S754_finite negative m e =>
      let v :=
        if (0 <=? e)%Z then inject_Z (Z.pos m * 2 ^ e)
        else (inject_Z (Z.pos m) / inject_Z (2 ^ (- e)))%Q in
      Some (Qred (if negative then (- v)%Q else v))
  | _ => None
  end.

End Float64.

(** The largest random value below one, as a rational. *)
Definition belowOne : Q := (1 - 1 / inject_Z (2 ^ 53))%Q.

(** ** A sample library *)

Definition trackA : Track.t :=
  Track.mk "1" "Alpha" "Ann" "" "/music/alpha.mp3" 200 None None None.
Definition trackB : Track.t :=
  Track.mk "2" "Beta" "Bob" "" "/music/beta.mp3" 100 None None None.
Definition trackC : Track.t :=
  Track.mk "3" "Gamma" "Cy" "" "/music/gamma.mp3" 0 None None None.

Definition library3 : list (string * Track.t) :=
  [("1", trackA); ("2", trackB); ("3", trackC)].

(** A fresh session over the three tracks. *)
Definition session3 : QuizEngine.t := QuizEngine.new library3 AudioPlayer.new.

(** A session without tracks, and the three-track session with every id
    marked used. *)
Definition sessionEmpty : QuizEngine.t := QuizEngine.new [] AudioPlayer.new.

Definition session3AllUsed : QuizEngine.t :=
  QuizEngine.set_usedTrackIds {["1"; "2"; "3"]} session3.

(** A playlist that refers to track ["1"] and to an id ["9"] that the
    collection does not have. *)
Definition playlistDangling : PlaylistNode.t :=
  PlaylistNode.mk "mix" PlaylistNode.playlist [] ["1"; "9"] None.

Definition sessionDangling : QuizEngine.t :=
  QuizEngine.setPlaylistFilter (Some playlistDangling) session3.

(** Every file is missing; every draw takes the first candidate. *)
Definition allMissing (attempts : nat) : Attempt.t :=
  Attempt.mk 0 (fun _ => false) 0 (fun _ => Some 200%Q) true.

(** Every file is present and loads; the draw value is one half. *)
Definition allPresent (attempts : nat) : Attempt.t :=
  Attempt.mk (1 # 2) (fun _ => true) (1 # 2) (fun _ => Some 200%Q) true.

(** * Further code: ingestion, session runs, the player's progress bar *)

(** ** rekordbox-parser.ts and database-reader.ts: building the library *)

(** [Map.prototype.set]: the value of an existing key is replaced where it
    stands, a new key is appended. *)
Fixpoint Map_set (m : list (string * Track.t)) (k : string) (v : Track.t)
    : list (string * Track.t) :=
  match m with
  | [] => [(k, v)]
  | (k', v') :: m' =>
      if decide (k = k') then (k, v) :: m' else (k', v') :: Map_set m' k v
  end.

Module DatabaseTrack.

Record t := mk {
  id : string;
  title : string;
  artist : string;
  album : string;
  location : string;
  duration : option Q
}.

End DatabaseTrack.

Module DatabasePlaylistNode.

Inductive t := mk {
  name : string;
  type : PlaylistNode.kind;
  children : option (list t);
  trackIds : option (list string);
  isSmartPlaylist : option bool
}.

End DatabasePlaylistNode.

(** [convertPlaylistNode] of database-reader.ts; the inner [fix] is
    [.map(convertPlaylistNode)], and a missing [children] or [trackIds] is
    the empty array. *)
Fixpoint convertPlaylistNode (node : DatabasePlaylistNode.t) : PlaylistNode.t :=
  PlaylistNode.mk
    (DatabasePlaylistNode.name node)
    (DatabasePlaylistNode.type node)
    (match DatabasePlaylistNode.children node with
     | Some children =>
         (fix map_convert (cs : list DatabasePlaylistNode.t)
            : list PlaylistNode.t :=
            match cs with
            | [] => []
            | c :: cs' => convertPlaylistNode c :: map_convert cs'
            end) children
     | None => []
     end)
    (match DatabasePlaylistNode.trackIds node with
     | Some ids => ids
     | None => []
     end)
    (DatabasePlaylistNode.isSmartPlaylist node).

(** The track that [readRekordboxDatabase] makes of a database row. *)
Definition convertTrack (dbTrack : DatabaseTrack.t) : Track.t :=
  Track.mk (DatabaseTrack.id dbTrack) (DatabaseTrack.title dbTrack)
    (DatabaseTrack.artist dbTrack) (DatabaseTrack.album dbTrack)
    (DatabaseTrack.location dbTrack)
    (match DatabaseTrack.duration dbTrack with Some d => d | None => 0%Q end)
    None None None.

(** The loop [for (const track of ...) tracks.set(track.id, track)] that
    both ingestion paths run over the tracks they have parsed. *)
Definition collectTracks (parsed : list Track.t) : list (string * Track.t) :=
  foldl (fun m track => Map_set m (Track.id track) track) [] parsed.

(** The part of [readRekordboxDatabase] after [JSON.parse]. *)
Definition readRekordboxDatabase_convert
    (tracks : list DatabaseTrack.t) (playlists : DatabasePlaylistNode.t)
    : list (string * Track.t) * PlaylistNode.t :=
  (collectTracks (convertTrack <$> tracks), convertPlaylistNode playlists).

(** A [NODE] element of the [PLAYLISTS] section as the XML parser hands it
    over: attributes are strings when present, and [NODE] and [TRACK] are
    arrays when present (the parser is configured with [isArray] for both).
    A [TRACK] reference is represented by its [Key] attribute. *)
Module XmlNode.

Inductive t := mk {
  attr_Name : option string;
  attr_Type : option string;
  NODE : option (list t);
  TRACK : option (list (option string))
}.

End XmlNode.

(** [String(ref["@_Key"] ?? "")] of every reference, keeping the non-empty
    ones. *)
Definition trackRefKeys (refs : list (option string)) : list string :=
  filter (fun key => key <> "")
    ((fun ref => match ref with Some key => key | None => "" end) <$> refs).

(** [parsePlaylistNode]; [trackIdMap] is the second parameter of the
    source. *)
Fixpoint parsePlaylistNode (node : XmlNode.t)
    (trackIdMap : list (string * string)) : PlaylistNode.t :=
  let name := match XmlNode.attr_Name node with Some n => n | None => "" end in
  if bool_decide (XmlNode.attr_Type node = Some "0") then
    PlaylistNode.mk name PlaylistNode.folder
      (match XmlNode.NODE node with
       | Some childNodes =>
           (fix push (cs : list XmlNode.t) : list PlaylistNode.t :=
              match cs with
              | [] => []
              | child :: cs' => parsePlaylistNode child trackIdMap :: push cs'
              end) childNodes
       | None => []
       end)
      [] None
  else
    PlaylistNode.mk name PlaylistNode.playlist []
      (match XmlNode.TRACK node with
       | Some trackRefs => trackRefKeys trackRefs
       | None => []
       end)
      None.

(** The playlist part of [parseRekordboxXml]: [playlistsSection] is
    [djPlaylists["PLAYLISTS"]] and its [NODE] array, when they are there. *)
Definition parseRekordboxXml_playlists
    (playlistsSection : option (option (list XmlNode.t)))
    (trackIdMap : list (string * string)) : PlaylistNode.t :=
  let playlists := PlaylistNode.mk "ROOT" PlaylistNode.folder [] [] None in
  match playlistsSection with
  | Some (Some (rootNode :: _)) => parsePlaylistNode rootNode trackIdMap
  | _ => playlists
  end.

(** The identity map over the collection's ids that [parseRekordboxXml]
    passes as [trackIdMap]. *)
Definition identityIdMap (tracks : list (string * Track.t))
    : list (string * string) :=
  (fun id => (id, id)) <$> Map_keys tracks.

(** What the data model asks of a playlist tree, at every depth: a folder
    carries no track ids, a playlist carries no children and no empty id. *)
Fixpoint nodeInvariant (node : PlaylistNode.t) : bool :=
  match PlaylistNode.type node with
  | PlaylistNode.folder =>
      bool_decide (PlaylistNode.trackIds node = [])
      && (fix all (cs : list PlaylistNode.t) : bool :=
            match cs with
            | [] => true
            | child :: cs' => nodeInvariant child && all cs'
            end) (PlaylistNode.children node)
  | PlaylistNode.playlist =>
      match PlaylistNode.children node with [] => true | _ => false end
      && forallb (fun id => bool_decide (id <> "")) (PlaylistNode.trackIds node)
  end.

(** A database export with a row for id ["2"] twice and a playlist tree
    with fields left out. *)
Definition sampleRows : list DatabaseTrack.t :=
  [DatabaseTrack.mk "1" "Alpha" "Ann" "" "/music/alpha.mp3" (Some 200%Q);
   DatabaseTrack.mk "2" "Beta" "Bob" "" "/music/beta.mp3" (Some 100%Q);
   DatabaseTrack.mk "2" "Beta (remix)" "Bob" "" "/music/beta2.mp3" None].

Definition sampleDatabaseTree : DatabasePlaylistNode.t :=
  DatabasePlaylistNode.mk "root" PlaylistNode.folder
    (Some [DatabasePlaylistNode.mk "set" PlaylistNode.playlist None
             (Some ["2"; "1"; "2"]) None;
           DatabasePlaylistNode.mk "smart" PlaylistNode.playlist None None
             (Some true);
           DatabasePlaylistNode.mk "empty" PlaylistNode.folder None None None])
    None None.

(** A [PLAYLISTS] tree with a reference without key and one to an id the
    collection lacks. *)
Definition sampleXmlTree : XmlNode.t :=
  XmlNode.mk (Some "ROOT") (Some "0")
    (Some [XmlNode.mk (Some "mix") (Some "1") None
             (Some [Some "1"; None; Some "9"; Some ""])])
    None.

(** The playlist nodes that flattening reaches from [node]: the node itself
    when it is a playlist, and otherwise those reached from its children, in
    order. *)
Fixpoint playlistsBelow (node : PlaylistNode.t) : list PlaylistNode.t :=
  match PlaylistNode.type node with
  | PlaylistNode.playlist => [node]
  | PlaylistNode.folder =>
      (fix below (cs : list PlaylistNode.t) : list PlaylistNode.t :=
         match cs with
         | [] => []
         | child :: cs' => playlistsBelow child ++ below cs'
         end) (PlaylistNode.children node)
  end.

(** All the track references below [node], repetitions included. *)
Definition referencesBelow (node : PlaylistNode.t) : list string :=
  concat (PlaylistNode.trackIds <$> playlistsBelow node).

(** A folder of two playlists and the same two playlists one folder
    deeper. *)
Definition playlistP : PlaylistNode.t :=
  PlaylistNode.mk "p" PlaylistNode.playlist [] ["1"; "2"; "1"] None.
Definition playlistQ : PlaylistNode.t :=
  PlaylistNode.mk "q" PlaylistNode.playlist [] ["3"; "2"] None.
Definition folderFlat : PlaylistNode.t :=
  PlaylistNode.mk "flat" PlaylistNode.folder [playlistP; playlistQ] [] None.
Definition folderNested : PlaylistNode.t :=
  PlaylistNode.mk "nested" PlaylistNode.folder
    [PlaylistNode.mk "inner" PlaylistNode.folder [playlistP] ["7"] None;
     playlistQ]
    [] None.

(** ** A session driven from outside

    What the application and the media element do to a session, one call at
    a time: the engine's methods (App.tsx calls them from its handlers), the
    handlers that the player registers on the element, the interval
    callback, and the element's clock moving on. A call runs to its end
    before the next one starts; a call of [nextTrack] that other calls
    overtake while it awaits the file check is [nextTrack_resume] below. *)
Module Session.

Inductive Operation :=
  | Reset
  | SetPlaylistFilter (playlist : option PlaylistNode.t)
  | NextTrack (ws : nat -> Attempt.t)
  | Reveal
  | TogglePlayback (started : bool)
  | OnPlay
  | OnPause
  | OnEnded
  | OnLoadedMetadata (duration : Q)
  | OnError
  | OnTick
  | DeviceTime (t : Q).

(** The element's position changes without any notification. *)
Definition deviceTime (t : Q) (s : QuizEngine.t) : QuizEngine.t :=
  QuizEngine.mk (QuizEngine.tracks s) (QuizEngine.activeTrackIds s)
    (QuizEngine.currentTrack s) (QuizEngine.isRevealed s)
    (QuizEngine.isLoading s) (QuizEngine.error s)
    (QuizEngine.playbackState s) (QuizEngine.usedTrackIds s)
    (AudioPlayer.set_audio
       (HTMLAudio.set_currentTime t (AudioPlayer.audio (QuizEngine.player s)))
       (QuizEngine.player s)).

Section WithAssetUrl.

Variable convertFileSrc : string -> string.

Definition apply (op : Operation) (s : QuizEngine.t) : QuizEngine.t :=
  match op with
  | Reset => QuizEngine.reset s
  | SetPlaylistFilter playlist => QuizEngine.setPlaylistFilter playlist s
  | NextTrack ws => QuizEngine.nextTrack convertFileSrc ws s
  | Reveal => QuizEngine.reveal s
  | TogglePlayback started => QuizEngine.togglePlayback started s
  | OnPlay => QuizEngine.withPlayer AudioPlayer.handlePlay s
  | OnPause => QuizEngine.withPlayer AudioPlayer.handlePause s
  | OnEnded => QuizEngine.withPlayer AudioPlayer.handleEnded s
  | OnLoadedMetadata d =>
      QuizEngine.withPlayer
        (fun p =>
           AudioPlayer.handleLoadedMetadata
             (AudioPlayer.set_audio
                (HTMLAudio.set_duration d (AudioPlayer.audio p)) p))
        s
  | OnError => QuizEngine.withPlayer AudioPlayer.handleError s
  | OnTick =>
      if AudioPlayer.updateInterval (QuizEngine.player s)
      then QuizEngine.withPlayer AudioPlayer.tick s
      else s
  | DeviceTime t => deviceTime t s
  end.

Definition run (ops : list Operation) (s : QuizEngine.t) : QuizEngine.t :=
  foldl (fun s op => apply op s) s ops.

End WithAssetUrl.

End Session.

(** ** A call of [nextTrack] overtaken by other calls

    [nextTrack] is asynchronous and App.tsx does not await it: at
    [await this.checkTrackExists(track)] the call hands control back, and
    calls made before the answer arrives run on the same engine.
    [nextTrack_afterCheck] is the rest of the iteration from the point where
    the call resumes: [track] and the number of attempts are locals of the
    suspended call, [s] is the session as the calls made meanwhile have left
    it. From there on the call is taken to run to its end. *)
Section Resumed.

Import QuizEngine.

Variable convertFileSrc : string -> string.

Definition nextTrack_afterCheck (w : Attempt.t) (track : Track.t) (s : t)
    : t + t :=
  if negb (checkTrackExists w track) then
    inl (markUsed (Track.id track) s)
  else
    let startOffset :=
      getRandomStartPoint (Track.duration track) (Attempt.randomStart w) in
    let '(p, loaded) :=
      AudioPlayer.load convertFileSrc (Track.location track) startOffset 30
        (Attempt.metadata w (Track.location track)) (player s) in
    let s := withPlayer (fun _ => p) s in
    if loaded then
      let s := set_currentTrack (Some track) s in
      let s := set_isRevealed false s in
      let s := markUsed (Track.id track) s in
      let s := set_isLoading false s in
      inr (withPlayer (AudioPlayer.play (Attempt.playStarted w)) s)
    else
      inl (markUsed (Track.id track) s).

(** The rest of the call: the iteration that was suspended, then the loop
    with [attempts + 1]. *)
Definition nextTrack_resume (ws : nat -> Attempt.t) (attempts : nat)
    (track : Track.t) (s : t) : t :=
  match nextTrack_afterCheck (ws attempts) track s with
  | inl s' =>
      nextTrack_loop convertFileSrc ws (maxAttempts - S attempts)
        (S attempts) s'
  | inr s' => s'
  end.

End Resumed.

(** A playlist with track ["1"] only. *)
Definition playlistOnlyA : PlaylistNode.t :=
  PlaylistNode.mk "solo" PlaylistNode.playlist [] ["1"] None.

(** The track is the table's entry for one of the active ids. *)
Definition inScope (s : QuizEngine.t) (track : Track.t) : Prop :=
  exists k, k ∈ QuizEngine.activeTrackIds s
            /\ Map_get (QuizEngine.tracks s) k = Some track.

(** What holds of a session between two calls, each call having run to its
    end before the next. *)
Definition sessionInv (tracks0 : list (string * Track.t)) (s : QuizEngine.t)
    : Prop :=
  QuizEngine.tracks s = tracks0
  /\ QuizEngine.playbackState s = AudioPlayer.state (QuizEngine.player s)
  /\ match QuizEngine.currentTrack s with
     | Some track => inScope s track
     | None => QuizEngine.isRevealed s = false
     end
  /\ ((forall k track,
          Map_get tracks0 k = Some track -> Track.id track = k) ->
      forall id, id ∈ QuizEngine.usedTrackIds s ->
                 id ∈ QuizEngine.activeTrackIds s).

(** Every id marked used has an entry in the table. *)
Definition usedInTable (tracks0 : list (string * Track.t)) (s : QuizEngine.t)
    : Prop :=
  QuizEngine.tracks s = tracks0
  /\ forall id, id ∈ QuizEngine.usedTrackIds s ->
                is_Some (Map_get tracks0 id).


(** A session's afternoon: a round, a tick, a reveal, a change to the
    playlist with the dangling reference, a round in which every file is
    missing, and the play button. *)
Definition sampleOps : list Session.Operation :=
  [Session.NextTrack allPresent; Session.OnTick; Session.Reveal;
   Session.SetPlaylistFilter (Some playlistDangling);
   Session.NextTrack allMissing; Session.TogglePlayback true].



(** A playlist without tracks. *)
Definition playlistEmpty : PlaylistNode.t :=
  PlaylistNode.mk "empty" PlaylistNode.playlist [] [] None.

(** The controller says playing only with the sampling loop on. *)
Definition samplingWhenPlaying (s : QuizEngine.t) : Prop :=
  PlaybackState.isPlaying (AudioPlayer.state (QuizEngine.player s)) = true ->
  AudioPlayer.updateInterval (QuizEngine.player s) = true.

(** ** components/Player.tsx *)

(** [Math.trunc], which is what the remainder operator rounds the quotient
    with. *)
Definition Number_trunc (x : Q) : Z :=
  if Qle_bool 0 x then Qfloor x else Qceiling x.

(** [a % b] on numbers: the remainder has the sign of [a]. *)
Definition Number_rem (a b : Q) : Q :=
  (a - b * inject_Z (Number_trunc (a / b)))%Q.

(** The string a template literal makes of an integer [n]. Up to [2^53] in
    magnitude every integer is a binary64 number and prints as its decimal
    digits. Beyond, the code prints the digits of the shortest decimal that
    reads back as the same number, followed by zeros: such integers are not
    printed by the model. *)
Definition Number_toString (n : Z) : option string :=
  if (Z.abs n <=? 2 ^ 53)%Z then Some (pretty n) else None.

(** [s.padStart(targetLength, c)] for a pad string of one character. *)
Definition padStart (targetLength : nat) (c : Ascii.ascii) (s : string)
    : string :=
  String.string_of_list_ascii (replicate (targetLength - String.length s) c)
  +:+ s.

Module PlayerView.

Import Stdlib.Strings.Ascii.

(** [formatTime]: the quotient is rounded; the remainder of two binary64
    numbers is a binary64 number and is not. The result is [None] where an
    integer is beyond what [Number_toString] prints. *)
Definition formatTime (seconds : Q) : option string :=
  let mins := Qfloor (Binary64.div seconds 60) in
  let secs := Qfloor (Number_rem seconds 60) in
  match Number_toString mins, Number_toString secs with
  | Some m, Some s => Some (m +:+ ":" +:+ padStart 2 "0"%char s)
  | _, _ => None
  end.

(** The width of the progress bar, in percent. *)
Definition progress (playbackState : PlaybackState.t) : Q :=
  if negb (Qle_bool (PlaybackState.maxPlayTime playbackState) 0)
  then (PlaybackState.currentTime playbackState
        / PlaybackState.maxPlayTime playbackState * 100)%Q
  else 0%Q.


End PlayerView.

(** * Properties *)

(** ** Flattening a playlist subtree *)

Section Flatten.

Lemma Set_add_elem (s : list string) (x y : string) :
  y ∈ Set_add s x <-> y = x \/ y ∈ s.
Proof.
  unfold Set_add. destruct (decide (x ∈ s)) as [Hin | Hnin].
  - split; [auto | intros [-> | ?]; assumption].
  - rewrite elem_of_app, list_elem_of_singleton. tauto.
Qed.

Lemma Set_add_NoDup (s : list string) (x : string) :
  NoDup s -> NoDup (Set_add s x).
Proof.
  intros Hs. unfold Set_add. destruct (decide (x ∈ s)) as [Hin | Hnin].
  - exact Hs.
  - apply NoDup_app. split; [exact Hs | split].
    + intros y Hy Hy'. apply list_elem_of_singleton in Hy'. subst y. auto.
    + apply NoDup_singleton.
Qed.

Lemma foldl_Set_add_elem (ids acc : list string) (y : string) :
  y ∈ foldl Set_add acc ids <-> y ∈ acc \/ y ∈ ids.
Proof.
  revert acc. induction ids as [| x ids IH]; intros acc; simpl.
  - rewrite elem_of_nil. tauto.
  - rewrite IH, Set_add_elem, elem_of_cons. tauto.
Qed.

Lemma foldl_Set_add_NoDup (ids acc : list string) :
  NoDup acc -> NoDup (foldl Set_add acc ids).
Proof.
  revert acc. induction ids as [| x ids IH]; intros acc Hacc; simpl.
  - exact Hacc.
  - apply IH, Set_add_NoDup, Hacc.
Qed.

Lemma Set_from_elem (ids : list string) (y : string) :
  y ∈ Set_from ids <-> y ∈ ids.
Proof.
  unfold Set_from. rewrite foldl_Set_add_elem, elem_of_nil. tauto.
Qed.

Lemma Set_from_NoDup (ids : list string) : NoDup (Set_from ids).
Proof. apply foldl_Set_add_NoDup, NoDup_nil_2. Qed.

(** The loop over the children collects exactly the ids of the children. *)
Lemma push_children_elem (cs : list PlaylistNode.t) (y : string) :
  y ∈ (fix push (cs : list PlaylistNode.t) : list string :=
         match cs with
         | [] => []
         | child :: cs' => getAllTrackIdsFromPlaylist child ++ push cs'
         end) cs
  <-> exists child, child ∈ cs /\ y ∈ getAllTrackIdsFromPlaylist child.
Proof.
  induction cs as [| c cs IH].
  - split; [intros H; inversion H | intros (c & Hc & _); inversion Hc].
  - rewrite elem_of_app, IH. split.
    + intros [Hy | (c' & Hc' & Hy)].
      * exists c. split; [left | exact Hy].
      * exists c'. split; [right; exact Hc' | exact Hy].
    + intros (c' & Hc' & Hy). apply elem_of_cons in Hc' as [-> | Hc'].
      * left; exact Hy.
      * right. exists c'. auto.
Qed.

(** C5. Flattening a playlist node gives its track-id references verbatim;
    flattening a folder node gives a list without repetition whose members
    are exactly the ids found by flattening some child, whatever ids the
    children share. *)
Theorem flatten_playlist_verbatim_folder_dedup
    (name : string) (children : list PlaylistNode.t) (trackIds : list string)
    (smart : option bool) :
  getAllTrackIdsFromPlaylist
    (PlaylistNode.mk name PlaylistNode.playlist children trackIds smart)
  = trackIds
  /\ NoDup (getAllTrackIdsFromPlaylist
             (PlaylistNode.mk name PlaylistNode.folder children trackIds smart))
  /\ forall id : string,
       id ∈ getAllTrackIdsFromPlaylist
              (PlaylistNode.mk name PlaylistNode.folder children trackIds smart)
       <-> exists child, child ∈ children
                         /\ id ∈ getAllTrackIdsFromPlaylist child.
Proof.
  split; [reflexivity | split].
  - simpl. apply Set_from_NoDup.
  - intros id. simpl. rewrite Set_from_elem. apply push_children_elem.
Qed.

End Flatten.

(** Two playlists of a folder share the track ["2"]. *)
Example flatten_shared_track :
  getAllTrackIdsFromPlaylist
    (PlaylistNode.mk "ROOT" PlaylistNode.folder
       [PlaylistNode.mk "a" PlaylistNode.playlist [] ["1"; "2"] None;
        PlaylistNode.mk "b" PlaylistNode.playlist [] ["2"; "3"] None]
       [] None)
  = ["1"; "2"; "3"].
Proof. reflexivity. Qed.

(** ** Reset, filter change and reveal *)

Section SessionOperations.

Import QuizEngine.

Lemma stop_stop (p : AudioPlayer.t) :
  AudioPlayer.stop (AudioPlayer.stop p) = AudioPlayer.stop p.
Proof. reflexivity. Qed.

Lemma stop_stopped (p : AudioPlayer.t) :
  HTMLAudio.paused (AudioPlayer.audio (AudioPlayer.stop p)) = true
  /\ HTMLAudio.src (AudioPlayer.audio (AudioPlayer.stop p)) = ""
  /\ AudioPlayer.state (AudioPlayer.stop p) = AudioPlayer.initialState.
Proof. repeat split. Qed.

(** C8. Resetting twice in a row leaves the session as one reset does, and
    after a reset there is no current track, the track is not revealed,
    nothing is loading, there is no error and no id is marked used. *)
Theorem reset_idempotent (s : QuizEngine.t) :
  reset (reset s) = reset s
  /\ currentTrack (reset s) = None
  /\ isRevealed (reset s) = false
  /\ isLoading (reset s) = false
  /\ error (reset s) = None
  /\ usedTrackIds (reset s) = ∅.
Proof. repeat split. Qed.

(** C4. A filter change sets the active ids to the keys of the track table
    (no playlist) or to the flattening of the chosen node, whatever was
    selected before, and then resets: the player is stopped and the current
    track, the revealed and loading flags, the error and the used ids are
    cleared. *)
Theorem setPlaylistFilter_replaces_and_resets
    (playlist : option PlaylistNode.t) (s : QuizEngine.t) :
  let ids :=
    match playlist with
    | None => Map_keys (tracks s)
    | Some node => getAllTrackIdsFromPlaylist node
    end in
  let s' := setPlaylistFilter playlist s in
  activeTrackIds s' = ids
  /\ s' = reset (set_activeTrackIds ids s)
  /\ tracks s' = tracks s
  /\ player s' = AudioPlayer.stop (player s)
  /\ HTMLAudio.paused (AudioPlayer.audio (player s')) = true
  /\ AudioPlayer.state (player s') = AudioPlayer.initialState
  /\ playbackState s' = AudioPlayer.initialState
  /\ currentTrack s' = None
  /\ isRevealed s' = false
  /\ isLoading s' = false
  /\ error s' = None
  /\ usedTrackIds s' = ∅.
Proof. destruct playlist; repeat split. Qed.

(** C9. Without a current track [reveal] changes nothing; with one it sets
    the revealed flag and leaves the track table, the active ids, the
    current track, the loading flag, the error, the used ids, the playback
    state and the player as they were. *)
Theorem reveal_frame (s : QuizEngine.t) :
  reveal (set_currentTrack None s) = set_currentTrack None s
  /\ (forall track,
        reveal (set_currentTrack (Some track) s)
        = set_isRevealed true (set_currentTrack (Some track) s))
  /\ isRevealed (reveal s)
     = match currentTrack s with Some _ => true | None => isRevealed s end
  /\ tracks (reveal s) = tracks s
  /\ activeTrackIds (reveal s) = activeTrackIds s
  /\ currentTrack (reveal s) = currentTrack s
  /\ isLoading (reveal s) = isLoading s
  /\ error (reveal s) = error s
  /\ usedTrackIds (reveal s) = usedTrackIds s
  /\ playbackState (reveal s) = playbackState s
  /\ player (reveal s) = player s.
Proof. destruct s as [? ? [track |] ? ? ? ? ? ?]; repeat split. Qed.

End SessionOperations.

(** ** Drawing a track *)

Section Draw.

Import QuizEngine.

(** For [r] in [[0,1)] the index [Math.floor(r * n)] is within an array of
    length [n > 0]. *)
Lemma floor_scaled_range (r : Q) (n : nat) :
  (0 <= r)%Q -> (r < 1)%Q -> (0 < n)%nat ->
  (0 <= floor_scaled r n < Z.of_nat n)%Z.
Proof.
  intros H0 H1 Hn. unfold floor_scaled.
  assert (Hpos : (0 < inject_Z (Z.of_nat n))%Q).
  { rewrite <- (Zlt_Qlt 0). lia. }
  split.
  - rewrite <- (Qfloor_Z 0). apply Qfloor_resp_le.
    apply Qmult_le_0_compat; [exact H0 | apply Qlt_le_weak, Hpos].
  - rewrite Zlt_Qlt.
    eapply Qle_lt_trans; [apply Qfloor_le |].
    apply Qlt_le_trans with (1 * inject_Z (Z.of_nat n))%Q.
    + apply Qmult_lt_compat_r; assumption.
    + rewrite Qmult_1_l. apply Qle_refl.
Qed.

Lemma Array_at_in_range {A} (arr : list A) (i : Z) :
  (0 <= i < Z.of_nat (length arr))%Z ->
  exists x, Array_at arr i = Some x /\ x ∈ arr.
Proof.
  intros [Hlo Hhi]. unfold Array_at.
  destruct (Z.ltb_spec i 0) as [Hneg | _]; [lia |].
  destruct (lookup_lt_is_Some_2 arr (Z.to_nat i)) as [x Hx]; [lia |].
  exists x. split; [exact Hx |]. apply list_elem_of_lookup. eauto.
Qed.

Lemma Array_at_elem {A} (arr : list A) (i : Z) (x : A) :
  Array_at arr i = Some x -> x ∈ arr.
Proof.
  unfold Array_at. destruct (i <? 0)%Z; [discriminate |].
  intros Hx. apply list_elem_of_lookup. eauto.
Qed.

Lemma unusedIds_elem (s : QuizEngine.t) (id : string) :
  id ∈ unusedIds s <-> id ∈ activeTrackIds s /\ id ∉ usedTrackIds s.
Proof. unfold unusedIds. rewrite list_elem_of_filter. tauto. Qed.

Lemma unusedIds_nil (s : QuizEngine.t) :
  unusedIds s = [] <->
  forall id, id ∈ activeTrackIds s -> id ∈ usedTrackIds s.
Proof.
  split.
  - intros Hnil id Hid. destruct (decide (id ∈ usedTrackIds s)) as [| Hn];
      [assumption |].
    assert (Hin : id ∈ unusedIds s) by (apply unusedIds_elem; auto).
    rewrite Hnil in Hin. inversion Hin.
  - intros Hall. destruct (unusedIds s) as [| id l] eqn:E; [reflexivity |].
    assert (Hin : id ∈ unusedIds s) by (rewrite E; left).
    apply unusedIds_elem in Hin as [Ha Hu]. destruct (Hu (Hall id Ha)).
Qed.

(** What a draw does, in terms of the selected id. *)
Lemma getRandomUnusedTrack_spec (r : Q) (s : QuizEngine.t) :
  getRandomUnusedTrack r s
  = (match unusedIds s with
     | [] => set_usedTrackIds ∅ s
     | _ => s
     end,
     match selectedId r s with
     | Some trackId => Map_get (tracks s) trackId
     | None => None
     end).
Proof.
  unfold getRandomUnusedTrack, selectedId, getRandomTrack.
  fold (unusedIds s). destruct (unusedIds s) as [| u l].
  - simpl. destruct (activeTrackIds s); reflexivity.
  - destruct (Array_at (u :: l) (floor_scaled r (length (u :: l))));
      reflexivity.
Qed.

Lemma selectedId_active (r : Q) (s : QuizEngine.t) (id : string) :
  selectedId r s = Some id -> id ∈ activeTrackIds s.
Proof.
  unfold selectedId. destruct (unusedIds s) as [| u l] eqn:E.
  - destruct (activeTrackIds s) as [| a l']; [discriminate |].
    apply Array_at_elem.
  - intros H. apply Array_at_elem in H. rewrite <- E in H.
    apply unusedIds_elem in H. tauto.
Qed.

Lemma selectedId_unused (r : Q) (s : QuizEngine.t) (id : string) :
  unusedIds s <> [] -> selectedId r s = Some id -> id ∉ usedTrackIds s.
Proof.
  unfold selectedId. destruct (unusedIds s) as [| u l] eqn:E; [congruence |].
  intros _ H. apply Array_at_elem in H. rewrite <- E in H.
  apply unusedIds_elem in H. tauto.
Qed.

Lemma selectedId_is_Some (r : Q) (s : QuizEngine.t) :
  (0 <= r)%Q -> (r < 1)%Q -> activeTrackIds s <> [] ->
  exists id, selectedId r s = Some id.
Proof.
  intros H0 H1 Hne. unfold selectedId. destruct (unusedIds s) as [| u l].
  - destruct (activeTrackIds s) as [| a l'] eqn:E; [congruence |].
    destruct (Array_at_in_range (a :: l') (floor_scaled r (length (a :: l'))))
      as (x & Hx & _); [| eauto].
    apply floor_scaled_range; simpl; auto with lia.
  - destruct (Array_at_in_range (u :: l) (floor_scaled r (length (u :: l))))
      as (x & Hx & _); [| eauto].
    apply floor_scaled_range; simpl; auto with lia.
Qed.

(** One marked draw: either it gives nothing and marks nothing, or it gives
    an active id that was unused (or any active id, after a wraparound) and
    marks it. *)
Lemma drawAndMark_cases (r : Q) (s : QuizEngine.t) :
  keyedById s ->
  tracks (drawAndMark r s).1 = tracks s
  /\ activeTrackIds (drawAndMark r s).1 = activeTrackIds s
  /\ match (drawAndMark r s).2 with
     | None =>
         usedTrackIds (drawAndMark r s).1 = usedTrackIds s
         \/ (unusedIds s = [] /\ usedTrackIds (drawAndMark r s).1 = ∅)
     | Some id =>
         id ∈ activeTrackIds s
         /\ (((id ∉ usedTrackIds s)
              /\ usedTrackIds (drawAndMark r s).1 = {[id]} ∪ usedTrackIds s)
             \/ (unusedIds s = []
                 /\ usedTrackIds (drawAndMark r s).1 = {[id]} ∪ ∅))
     end.
Proof.
  intros Hwf. unfold drawAndMark. rewrite getRandomUnusedTrack_spec.
  destruct (selectedId r s) as [x |] eqn:Hsel.
  - destruct (Map_get (tracks s) x) as [track |] eqn:Hget.
    + apply Hwf in Hget as Hid. rewrite Hid.
      pose proof (selectedId_active _ _ _ Hsel) as Hact.
      destruct (unusedIds s) as [| u l] eqn:E; simpl.
      * repeat split; auto.
      * repeat split; auto. left. split; [| reflexivity].
        apply (selectedId_unused r); [rewrite E; discriminate | exact Hsel].
    + destruct (unusedIds s); simpl; auto.
  - destruct (unusedIds s); simpl; auto.
Qed.

(** The ids returned so far are [prev]. While no wraparound has happened the
    used ids are exactly [prev]; once one has, every active id is in
    [prev]. Under this invariant an id comes back only after all of them
    have been returned. *)
Lemma draws_no_early_repeat (rs : list Q) :
  forall (s : QuizEngine.t) (prev : gset string),
    keyedById s ->
    usedTrackIds s = prev \/ (forall a, a ∈ activeTrackIds s -> a ∈ prev) ->
    forall (j : nat) (id : string),
      draws rs s !! j = Some (Some id) ->
      id ∈ prev \/ (exists i, (i < j)%nat /\ draws rs s !! i = Some (Some id)) ->
      forall a, a ∈ activeTrackIds s ->
        a ∈ prev \/ exists k, (k < j)%nat /\ draws rs s !! k = Some (Some a).
Proof.
  induction rs as [| r rs IH]; intros s prev Hwf Hinv j id Hj Hrep a Ha.
  - destruct j; discriminate.
  - destruct Hinv as [Hused | Hall]; [| left; auto].
    simpl in Hj, Hrep |- *.
    destruct (drawAndMark_cases r s Hwf) as (Htr & Hact & Hcase).
    destruct (drawAndMark r s) as [s1 o] eqn:Hdm. simpl in Htr, Hact, Hcase.
    assert (Hwf1 : keyedById s1) by (unfold keyedById; rewrite Htr; exact Hwf).
    destruct j as [| j].
    + (* the first draw already repeats an id of [prev] *)
      simpl in Hj. injection Hj as ->.
      destruct Hrep as [Hin | (i & Hi & _)]; [| lia].
      destruct Hcase as (_ & [[Hnot _] | [Hnil _]]).
      * rewrite Hused in Hnot. contradiction.
      * left. rewrite <- Hused. apply (proj1 (unusedIds_nil s)); assumption.
    + simpl in Hj.
      set (prev' := match o with Some x => {[x]} ∪ prev | None => prev end).
      assert (Hinv' : usedTrackIds s1 = prev'
                      \/ (forall b, b ∈ activeTrackIds s1 -> b ∈ prev')).
      { subst prev'. rewrite Hact. destruct o as [x |].
        - destruct Hcase as (_ & [[_ Hu] | [Hnil _]]).
          + left. rewrite Hu, Hused. reflexivity.
          + right. intros b Hb. apply elem_of_union_r. rewrite <- Hused.
            apply (proj1 (unusedIds_nil s)); assumption.
        - destruct Hcase as [Hu | [Hnil _]].
          + left. rewrite Hu. exact Hused.
          + right. intros b Hb. rewrite <- Hused.
            apply (proj1 (unusedIds_nil s)); assumption. }
      assert (Hrep' : id ∈ prev'
                      \/ exists i, (i < j)%nat
                                   /\ draws rs s1 !! i = Some (Some id)).
      { destruct Hrep as [Hin | (i & Hi & Hdi)].
        - left. subst prev'. destruct o; [apply elem_of_union_r |]; exact Hin.
        - destruct i as [| i].
          + simpl in Hdi. injection Hdi as ->. left. subst prev'.
            apply elem_of_union_l, elem_of_singleton. reflexivity.
          + right. exists i. split; [lia | exact Hdi]. }
      rewrite <- Hact in Ha.
      destruct (IH s1 prev' Hwf1 Hinv' j id Hj Hrep' a Ha)
        as [Hin | (k & Hk & Hdk)].
      * subst prev'. destruct o as [x |]; [| left; exact Hin].
        apply elem_of_union in Hin as [Hx | Hin]; [| left; exact Hin].
        apply elem_of_singleton in Hx. subst x.
        right. exists 0%nat. split; [lia | reflexivity].
      * right. exists (S k). split; [lia | exact Hdk].
Qed.

(** C1, as the code has it. For a random value in [[0,1)]: with no active
    id the draw gives nothing; with an active id that is unused it selects
    an active unused id and leaves the used ids alone; with every active id
    used it clears the used ids and selects an active id. In the last two
    cases the draw returns the table's entry for the selected id, which is
    nothing when the id has no entry. And from a table keyed by id and no
    used ids, draws whose results are marked used never return an id a
    second time before every active id has been returned. *)
Theorem draw_selects_unused_then_wraps (s : QuizEngine.t) (r : Q)
    (Hr0 : (0 <= r)%Q) (Hr1 : (r < 1)%Q) :
  (activeTrackIds s = [] -> (getRandomUnusedTrack r s).2 = None)
  /\ (activeTrackIds s <> [] ->
      (exists id, id ∈ activeTrackIds s /\ id ∉ usedTrackIds s) ->
      exists id, selectedId r s = Some id
                 /\ id ∈ activeTrackIds s /\ (id ∉ usedTrackIds s)
                 /\ getRandomUnusedTrack r s = (s, Map_get (tracks s) id))
  /\ (activeTrackIds s <> [] ->
      (forall id, id ∈ activeTrackIds s -> id ∈ usedTrackIds s) ->
      exists id, selectedId r s = Some id
                 /\ id ∈ activeTrackIds s
                 /\ getRandomUnusedTrack r s
                    = (set_usedTrackIds ∅ s, Map_get (tracks s) id))
  /\ (keyedById s -> usedTrackIds s = ∅ ->
      forall (rs : list Q) (i j : nat) (id : string),
        (i < j)%nat ->
        draws rs s !! i = Some (Some id) ->
        draws rs s !! j = Some (Some id) ->
        forall a, a ∈ activeTrackIds s ->
          exists k, (k < j)%nat /\ draws rs s !! k = Some (Some a)).
Proof.
  split; [| split; [| split]].
  - intros Hnil. rewrite getRandomUnusedTrack_spec. simpl.
    unfold selectedId, unusedIds. rewrite Hnil. reflexivity.
  - intros Hne (x & Hx & Hxu).
    destruct (selectedId_is_Some r s Hr0 Hr1 Hne) as [id Hid].
    assert (Hun : unusedIds s <> []).
    { intros Hnil. apply Hxu. apply (proj1 (unusedIds_nil s)); assumption. }
    exists id. repeat split.
    + exact Hid.
    + apply (selectedId_active r), Hid.
    + apply (selectedId_unused r); assumption.
    + rewrite getRandomUnusedTrack_spec, Hid.
      destruct (unusedIds s); [congruence | reflexivity].
  - intros Hne Hall.
    destruct (selectedId_is_Some r s Hr0 Hr1 Hne) as [id Hid].
    exists id. repeat split.
    + exact Hid.
    + apply (selectedId_active r), Hid.
    + rewrite getRandomUnusedTrack_spec, Hid.
      rewrite (proj2 (unusedIds_nil s) Hall). reflexivity.
  - intros Hwf Hfresh rs i j id Hij Hi Hj a Ha.
    destruct (draws_no_early_repeat rs s ∅ Hwf (or_introl Hfresh) j id Hj
                (or_intror (ex_intro _ i (conj Hij Hi))) a Ha)
      as [Hin | Hk]; [| exact Hk].
    apply elem_of_empty in Hin. contradiction.
Qed.

Lemma keyedById_session3 : keyedById session3.
Proof.
  intros k track Hget. simpl in Hget.
  repeat case_decide; simplify_eq; reflexivity.
Qed.

End Draw.

Lemma draw_selects_unused_then_wraps_witness :
  (QuizEngine.getRandomUnusedTrack 0 sessionEmpty).2 = None
  /\ (exists id, selectedId 0 session3 = Some id
                 /\ id ∈ QuizEngine.activeTrackIds session3
                 /\ (id ∉ QuizEngine.usedTrackIds session3)
                 /\ QuizEngine.getRandomUnusedTrack 0 session3
                    = (session3, Map_get (QuizEngine.tracks session3) id))
  /\ (exists id, selectedId 0 session3AllUsed = Some id
                 /\ id ∈ QuizEngine.activeTrackIds session3AllUsed
                 /\ QuizEngine.getRandomUnusedTrack 0 session3AllUsed
                    = (QuizEngine.set_usedTrackIds ∅ session3AllUsed,
                       Map_get (QuizEngine.tracks session3AllUsed) id))
  /\ (forall a, a ∈ QuizEngine.activeTrackIds session3 ->
        exists k, (k < 3)%nat
                  /\ draws [0; 0; 0; 0]%Q session3 !! k = Some (Some a)).
Proof.
  destruct (draw_selects_unused_then_wraps sessionEmpty 0)
    as (Hempty & _); [easy | easy |].
  destruct (draw_selects_unused_then_wraps session3 0)
    as (_ & Hunused & _ & Hcycle); [easy | easy |].
  destruct (draw_selects_unused_then_wraps session3AllUsed 0)
    as (_ & _ & Hwrap & _); [easy | easy |].
  split; [| split; [| split]].
  - apply Hempty. reflexivity.
  - apply Hunused; [discriminate |].
    exists "1". split; [left | apply not_elem_of_empty].
  - apply Hwrap; [discriminate |].
    intros id Hid. simpl in Hid.
    repeat (apply elem_of_cons in Hid as [-> | Hid]);
      [set_solver | set_solver | set_solver | inversion Hid].
  - apply (Hcycle keyedById_session3 eq_refl [0; 0; 0; 0]%Q 0%nat 3%nat "1");
      [lia | reflexivity | reflexivity].
Defined.

(** With the active ids ["1"] and ["9"], none of them used, a draw whose
    random value is one half selects ["9"], which has no entry in the track
    table, and returns nothing. *)
Lemma draw_dangling_id_returns_absent :
  QuizEngine.activeTrackIds sessionDangling = ["1"; "9"]
  /\ QuizEngine.usedTrackIds sessionDangling = ∅
  /\ selectedId (1 # 2) sessionDangling = Some "9"
  /\ (QuizEngine.getRandomUnusedTrack (1 # 2) sessionDangling).2 = None
  /\ ~ (exists id, id ∈ QuizEngine.activeTrackIds sessionDangling
                   /\ (id ∉ QuizEngine.usedTrackIds sessionDangling)
                   /\ (QuizEngine.getRandomUnusedTrack (1 # 2)
                         sessionDangling).2
                      = Map_get (QuizEngine.tracks sessionDangling) id
                   /\ is_Some (Map_get (QuizEngine.tracks sessionDangling) id)).
Proof.
  repeat split.
  intros (id & _ & _ & Heq & [track Htrack]).
  rewrite Htrack in Heq. discriminate Heq.
Qed.

(** ** The retry loop of [nextTrack] *)

Section NextTrack.

Import QuizEngine.

Variable convertFileSrc : string -> string.

#[local] Abbreviation body := (nextTrack_body convertFileSrc).
#[local] Abbreviation loop := (nextTrack_loop convertFileSrc).
#[local] Abbreviation run := (attemptsFrom convertFileSrc).

(** A draw changes nothing but the used ids, which it keeps or clears. *)
Lemma getRandomUnusedTrack_frame (r : Q) (s : QuizEngine.t) :
  tracks (getRandomUnusedTrack r s).1 = tracks s
  /\ activeTrackIds (getRandomUnusedTrack r s).1 = activeTrackIds s
  /\ currentTrack (getRandomUnusedTrack r s).1 = currentTrack s
  /\ isRevealed (getRandomUnusedTrack r s).1 = isRevealed s
  /\ isLoading (getRandomUnusedTrack r s).1 = isLoading s
  /\ error (getRandomUnusedTrack r s).1 = error s
  /\ player (getRandomUnusedTrack r s).1 = player s
  /\ usedTrackIds (getRandomUnusedTrack r s).1
     = match unusedIds s with [] => ∅ | _ => usedTrackIds s end.
Proof.
  rewrite getRandomUnusedTrack_spec. destruct (unusedIds s); repeat split.
Qed.

Ltac body_cases w s :=
  unfold nextTrack_body;
  let s1 := fresh "s1" in
  let track := fresh "track" in
  let Hd := fresh "Hdraw" in
  destruct (getRandomUnusedTrack (Attempt.randomDraw w) s)
    as [s1 [track |]] eqn:Hd;
  [ let Hex := fresh "Hexists" in
    destruct (checkTrackExists w track) eqn:Hex; simpl;
    [ let Hmd := fresh "Hmeta" in
      unfold AudioPlayer.load;
      destruct (Attempt.metadata w (Track.location track)) eqn:Hmd; simpl
    | ]
  | ].

(** An iteration that goes on had a candidate that failed, marked it used
    and touched nothing else of the session but the player. *)
Lemma nextTrack_body_inl (w : Attempt.t) (s s' : QuizEngine.t) :
  body w s = inl s' ->
  exists track,
    candidateFails w s track
    /\ usedTrackIds s'
       = {[Track.id track]}
         ∪ usedTrackIds (getRandomUnusedTrack (Attempt.randomDraw w) s).1
    /\ tracks s' = tracks s
    /\ activeTrackIds s' = activeTrackIds s
    /\ currentTrack s' = currentTrack s
    /\ isRevealed s' = isRevealed s
    /\ isLoading s' = isLoading s
    /\ error s' = error s.
Proof.
  pose proof (getRandomUnusedTrack_frame (Attempt.randomDraw w) s)
    as (Ht & Ha & Hc & Hr & Hl & He & _ & _).
  unfold candidateFails. revert Ht Ha Hc Hr Hl He.
  body_cases w s; simpl; intros Ht Ha Hc Hr Hl He H; inversion H; subst;
    clear H; exists track; simpl; repeat split; auto.
Qed.


(** An iteration that returns either found no track and reports it, or
    loaded its candidate. *)
Lemma nextTrack_body_inr (w : Attempt.t) (s s' : QuizEngine.t) :
  body w s = inr s' ->
  isLoading s' = false
  /\ ((error s' = Some "No tracks available"
       /\ (getRandomUnusedTrack (Attempt.randomDraw w) s).2 = None
       /\ s' = set_isLoading false
                 (set_error (Some "No tracks available")
                    (getRandomUnusedTrack (Attempt.randomDraw w) s).1))
      \/ (error s' = error s
          /\ exists track,
               (getRandomUnusedTrack (Attempt.randomDraw w) s).2 = Some track
               /\ checkTrackExists w track = true
               /\ is_Some (Attempt.metadata w (Track.location track))
               /\ currentTrack s' = Some track
               /\ isRevealed s' = false
               /\ Track.id track ∈ usedTrackIds s')).
Proof.
  pose proof (getRandomUnusedTrack_frame (Attempt.randomDraw w) s)
    as (_ & _ & _ & _ & _ & He & _ & _).
  revert He.
  body_cases w s; simpl; intros He H; inversion H; subst; clear H; simpl;
    (split; [reflexivity |]).
  - right. split; [exact He |]. exists track. repeat split; eauto.
    apply elem_of_union_l, elem_of_singleton. reflexivity.
  - left. repeat split.
Qed.

(** However the loop ends, nothing is loading afterwards, and either a
    track was loaded and no error is set, or one of the two errors is. *)
Lemma nextTrack_loop_outcome (ws : nat -> Attempt.t) (remaining : nat) :
  forall (attempts : nat) (s : QuizEngine.t),
    error s = None ->
    isLoading (loop ws remaining attempts s) = false
    /\ ((error (loop ws remaining attempts s) = None
         /\ exists track,
              currentTrack (loop ws remaining attempts s) = Some track
              /\ isRevealed (loop ws remaining attempts s) = false
              /\ Track.id track ∈ usedTrackIds (loop ws remaining attempts s))
        \/ error (loop ws remaining attempts s) = Some "No tracks available"
        \/ (error (loop ws remaining attempts s)
            = Some "Could not find a playable track"
            /\ currentTrack (loop ws remaining attempts s) = None
            /\ isRevealed (loop ws remaining attempts s) = false)).
Proof.
  induction remaining as [| remaining IH]; intros attempts s Herr; simpl.
  - split; [reflexivity |]. right; right. repeat split.
  - destruct (body (ws attempts) s) as [s' | s'] eqn:Hbody.
    + apply IH. apply nextTrack_body_inl in Hbody
        as (track & _ & _ & _ & _ & _ & _ & _ & He). congruence.
    + apply nextTrack_body_inr in Hbody
        as (Hload & [(He & _ & _) | (He & track & _ & _ & _ & Hc & Hr & Hu)]).
      * split; [exact Hload |]. right; left. exact He.
      * split; [exact Hload |]. left. split; [congruence |].
        exists track. auto.
Qed.

(** C10. When the id that the draw selects has no entry in the track table,
    the draw returns nothing and the iteration returns at once with the
    error "No tracks available" and nothing loading: whatever is left of
    the retry budget is not used, the id is not among the used ids, and the
    current track is as it was. The id is an active one, and other active
    ids may well have playable tracks. *)
Theorem dangling_id_ends_nextTrack (w : Attempt.t) (s : QuizEngine.t)
    (id : string)
    (Hselected : selectedId (Attempt.randomDraw w) s = Some id)
    (Hdangling : Map_get (tracks s) id = None) :
  id ∈ activeTrackIds s
  /\ (getRandomUnusedTrack (Attempt.randomDraw w) s).2 = None
  /\ exists s',
       body w s = inr s'
       /\ error s' = Some "No tracks available"
       /\ isLoading s' = false
       /\ (id ∉ usedTrackIds s')
       /\ currentTrack s' = currentTrack s
       /\ isRevealed s' = isRevealed s
       /\ (forall ws remaining attempts,
             ws attempts = w -> loop ws (S remaining) attempts s = s')
       /\ (forall ws s0,
             ws 0%nat = w -> nextTrack_enter s0 = s ->
             nextTrack convertFileSrc ws s0 = s').
Proof.
  assert (Hnone : (getRandomUnusedTrack (Attempt.randomDraw w) s).2 = None).
  { rewrite getRandomUnusedTrack_spec. simpl.
    rewrite Hselected. exact Hdangling. }
  assert (Hbody : body w s
                  = inr (set_isLoading false
                           (set_error (Some "No tracks available")
                              (getRandomUnusedTrack
                                 (Attempt.randomDraw w) s).1))).
  { unfold nextTrack_body.
    destruct (getRandomUnusedTrack (Attempt.randomDraw w) s) as [s1 o].
    simpl in Hnone. subst o. reflexivity. }
  pose proof (getRandomUnusedTrack_frame (Attempt.randomDraw w) s)
    as (_ & _ & Hc & Hr & _ & _ & _ & Hu).
  split; [apply (selectedId_active _ _ _ Hselected) |].
  split; [exact Hnone |].
  eexists. split; [exact Hbody |]. simpl. repeat split.
  - rewrite Hu. destruct (unusedIds s) as [| u l] eqn:E.
    + apply not_elem_of_empty.
    + apply (selectedId_unused (Attempt.randomDraw w));
        [rewrite E; discriminate | exact Hselected].
  - exact Hc.
  - exact Hr.
  - intros ws remaining attempts Hw. simpl. rewrite Hw, Hbody. reflexivity.
  - intros ws s0 Hw Hs0. unfold nextTrack. rewrite Hs0. simpl.
    rewrite Hw, Hbody. reflexivity.
Qed.


(** *** Runs in which every candidate fails *)








End NextTrack.


(** The three files are missing: the first three iterations take ["1"],
    ["2"], ["3"], the fourth finds them all used and starts over. *)
Example allMissing_wraps :
  QuizEngine.usedTrackIds <$>
    attemptsFrom (fun path => path) allMissing 0 3
      (QuizEngine.nextTrack_enter session3)
  = Some ({["1"; "2"; "3"]} : gset string)
  /\ QuizEngine.usedTrackIds <$>
       attemptsFrom (fun path => path) allMissing 0 4
         (QuizEngine.nextTrack_enter session3)
     = Some ({["1"]} : gset string).
Proof. split; reflexivity. Qed.

Lemma dangling_id_ends_nextTrack_witness :
  QuizEngine.error
    (QuizEngine.nextTrack (fun path => path) allPresent sessionDangling)
  = Some "No tracks available"
  /\ QuizEngine.isLoading
       (QuizEngine.nextTrack (fun path => path) allPresent sessionDangling)
     = false
  /\ ("9" ∉ QuizEngine.usedTrackIds
              (QuizEngine.nextTrack (fun path => path) allPresent
                 sessionDangling))
  /\ "1" ∈ QuizEngine.activeTrackIds sessionDangling
  /\ Map_get (QuizEngine.tracks sessionDangling) "1" = Some trackA.
Proof.
  destruct (dangling_id_ends_nextTrack (fun path => path) (allPresent 0)
              (QuizEngine.nextTrack_enter sessionDangling) "9"
              eq_refl eq_refl)
    as (_ & _ & s' & _ & He & Hl & Hu & _ & _ & _ & Hcall).
  rewrite (Hcall allPresent sessionDangling eq_refl eq_refl).
  repeat split; [exact He | exact Hl | exact Hu | left].
Defined.


(** ** Rounding to binary64 *)

Section Rounding.

Import Binary64.

Lemma rne_bounds (q : Q) : (Qfloor q <= rne q <= Qfloor q + 1)%Z.
Proof.
  unfold rne. destruct (Qcompare _ _); [destruct (Z.even _) | |]; lia.
Qed.

Lemma rne_comp (q q' : Q) : (q == q')%Q -> rne q = rne q'.
Proof.
  intros H. unfold rne. rewrite (Qfloor_comp _ _ H).
  assert (Hc : (q - inject_Z (Qfloor q') ?= 1 # 2)%Q
               = (q' - inject_Z (Qfloor q') ?= 1 # 2)%Q)
    by (rewrite H; reflexivity).
  rewrite Hc. reflexivity.
Qed.

Lemma rne_inject_Z (z : Z) : rne (inject_Z z) = z.
Proof.
  unfold rne. rewrite Qfloor_Z.
  assert (H : (inject_Z z - inject_Z z ?= 1 # 2)%Q = Lt).
  { apply Qlt_alt. ring_simplify (inject_Z z - inject_Z z)%Q. reflexivity. }
  rewrite H. reflexivity.
Qed.

Lemma rne_mono (q q' : Q) : (q <= q')%Q -> (rne q <= rne q')%Z.
Proof.
  intros H.
  pose proof (Qfloor_resp_le _ _ H) as Hf.
  destruct (Z.eq_dec (Qfloor q) (Qfloor q')) as [Heq | Hne].
  - unfold rne. rewrite Heq.
    destruct (Qcompare_spec (q - inject_Z (Qfloor q')) (1 # 2)) as [H1 | H1 | H1];
      destruct (Qcompare_spec (q' - inject_Z (Qfloor q')) (1 # 2))
        as [H2 | H2 | H2];
      try destruct (Z.even _); try lia; exfalso; lra.
  - pose proof (rne_bounds q). pose proof (rne_bounds q'). lia.
Qed.

Lemma rne_near (q : Q) :
  (q - (1 # 2) <= inject_Z (rne q))%Q /\ (inject_Z (rne q) <= q + (1 # 2))%Q.
Proof.
  pose proof (Qfloor_le q) as Hlo. pose proof (Qlt_floor q) as Hhi.
  rewrite inject_Z_plus in Hhi. change (inject_Z 1) with 1%Q in Hhi.
  unfold rne.
  destruct (Qcompare_spec (q - inject_Z (Qfloor q)) (1 # 2)) as [H1 | H1 | H1];
    [destruct (Z.even _) | |];
    rewrite ?inject_Z_plus; change (inject_Z 1) with 1%Q; split; lra.
Qed.

Lemma pow2_pos (e : Z) : (0 <= e)%Z -> (0 < 2 ^ e)%Z.
Proof. intros. apply Z.pow_pos_nonneg; lia. Qed.

Lemma inject_Z_pos (z : Z) : (0 < z)%Z -> (0 < inject_Z z)%Q.
Proof. intros H. rewrite Zlt_Qlt in H. exact H. Qed.

Lemma exponent_nonneg (X : Q) : (0 <= exponent X)%Z.
Proof. unfold exponent. lia. Qed.


Lemma exponent_mono (X Y : Q) : (X <= Y)%Q -> (exponent X <= exponent Y)%Z.
Proof.
  intros H. unfold exponent.
  pose proof (Z.log2_le_mono _ _ (Qfloor_resp_le _ _ H)). lia.
Qed.

Lemma exponent_upper (X : Q) :
  (0 <= X)%Q -> (X < inject_Z (2 ^ (exponent X + 53)))%Q.
Proof.
  intros H0.
  apply Qlt_le_trans with (inject_Z (Qfloor X + 1)); [apply Qlt_floor |].
  rewrite <- Zle_Qle.
  assert (Hn : (0 <= Qfloor X)%Z).
  { rewrite <- (Qfloor_Z 0). apply Qfloor_resp_le. exact H0. }
  assert (Hlog : (Qfloor X + 1 <= 2 ^ (Z.log2 (Qfloor X) + 1))%Z).
  { destruct (Z.eq_dec (Qfloor X) 0%Z) as [-> | Hne]; [simpl; lia |].
    pose proof (Z.log2_spec (Qfloor X)) as Hs.
    unfold Z.succ in Hs. lia. }
  etransitivity; [exact Hlog |].
  apply Z.pow_le_mono_r; [lia |]. unfold exponent. lia.
Qed.

Lemma exponent_lower (X : Q) :
  (0 < exponent X)%Z -> (inject_Z (2 ^ (exponent X + 52)) <= X)%Q.
Proof.
  intros He.
  apply Qle_trans with (inject_Z (Qfloor X)); [| apply Qfloor_le].
  rewrite <- Zle_Qle. unfold exponent in *.
  assert (Hn : (0 < Qfloor X)%Z).
  { destruct (Z.lt_ge_cases 0 (Qfloor X)) as [? | Hle]; [assumption |].
    rewrite (Z.log2_nonpos _ Hle) in He. lia. }
  pose proof (Z.log2_spec _ Hn) as [Hs _].
  replace ((Z.log2 (Qfloor X) - 52) `max` 0 + 52)%Z with (Z.log2 (Qfloor X))
    by lia.
  exact Hs.
Qed.


Lemma roundScaled_upper (X : Q) :
  (0 <= X)%Q -> (roundScaled X <= 2 ^ (exponent X + 53))%Z.
Proof.
  intros H0. unfold roundScaled.
  pose proof (exponent_nonneg X) as He.
  pose proof (pow2_pos _ He) as Hp.
  rewrite Z.pow_add_r by lia. rewrite (Z.mul_comm (2 ^ exponent X)).
  apply Z.mul_le_mono_nonneg_r; [lia |].
  rewrite <- (rne_inject_Z (2 ^ 53)). apply rne_mono.
  apply Qle_shift_div_r; [apply inject_Z_pos, Hp |].
  rewrite <- inject_Z_mult, <- Z.pow_add_r by lia.
  rewrite Z.add_comm. apply Qlt_le_weak, exponent_upper, H0.
Qed.

Lemma roundScaled_lower (X : Q) :
  (0 < exponent X)%Z -> (2 ^ (exponent X + 52) <= roundScaled X)%Z.
Proof.
  intros He. unfold roundScaled.
  pose proof (pow2_pos (exponent X) ltac:(lia)) as Hp.
  rewrite Z.pow_add_r by lia. rewrite (Z.mul_comm (2 ^ exponent X)).
  apply Z.mul_le_mono_nonneg_r; [lia |].
  rewrite <- (rne_inject_Z (2 ^ 52)) at 1. apply rne_mono.
  apply Qle_shift_div_l; [apply inject_Z_pos, Hp |].
  rewrite <- inject_Z_mult, <- Z.pow_add_r by lia.
  rewrite Z.add_comm. apply exponent_lower, He.
Qed.


Lemma roundScaled_mono (X Y : Q) :
  (0 <= X)%Q -> (X <= Y)%Q -> (roundScaled X <= roundScaled Y)%Z.
Proof.
  intros H0 Hle.
  pose proof (exponent_mono _ _ Hle) as He.
  destruct (Z.eq_dec (exponent X) (exponent Y)) as [Heq | Hne].
  - unfold roundScaled. rewrite Heq.
    pose proof (pow2_pos _ (exponent_nonneg Y)) as Hp.
    apply Z.mul_le_mono_nonneg_r; [lia |]. apply rne_mono.
    apply Qmult_le_compat_r; [exact Hle |].
    apply Qlt_le_weak, Qinv_lt_0_compat, inject_Z_pos, Hp.
  - pose proof (exponent_nonneg X) as HeX.
    pose proof (roundScaled_upper X H0) as Hup.
    pose proof (roundScaled_lower Y ltac:(lia)) as Hlo.
    assert (Hpow : (2 ^ (exponent X + 53) <= 2 ^ (exponent Y + 52))%Z)
      by (apply Z.pow_le_mono_r; lia).
    lia.
Qed.

Lemma roundScaled_multiple (R q : Z) :
  R = (q * 2 ^ exponent (inject_Z R))%Z -> roundScaled (inject_Z R) = R.
Proof.
  intros HR. unfold roundScaled.
  pose proof (pow2_pos _ (exponent_nonneg (inject_Z R))) as Hp.
  assert (Hq : (inject_Z R / inject_Z (2 ^ exponent (inject_Z R))
                == inject_Z q)%Q).
  { rewrite HR at 1. rewrite inject_Z_mult. field.
    intros Hz. apply inject_Z_pos in Hp. rewrite Hz in Hp.
    exact (Qlt_irrefl _ Hp). }
  rewrite (rne_comp _ _ Hq), rne_inject_Z. symmetry. exact HR.
Qed.

Lemma roundScaled_repr (m e : Z) :
  (0 <= m <= 2 ^ 53)%Z -> (0 <= e)%Z ->
  roundScaled (inject_Z (m * 2 ^ e)) = (m * 2 ^ e)%Z.
Proof.
  intros Hm He.
  destruct (Z.eq_dec m 0%Z) as [-> | Hm0].
  { rewrite Z.mul_0_l. reflexivity. }
  assert (Hlog : Z.log2 (m * 2 ^ e) = (e + Z.log2 m)%Z)
    by (apply Z.log2_mul_pow2; lia).
  assert (Hexp : exponent (inject_Z (m * 2 ^ e))
                 = ((e + Z.log2 m - 52) `max` 0)%Z).
  { unfold exponent. rewrite Qfloor_Z, Hlog. reflexivity. }
  destruct (Z.eq_dec m (2 ^ 53)%Z) as [-> | Hm53].
  - apply (roundScaled_multiple _ (2 ^ 52)%Z). rewrite Hexp.
    rewrite Z.log2_pow2 by lia.
    replace ((e + 53 - 52) `max` 0)%Z with (e + 1)%Z by lia.
    rewrite <- !Z.pow_add_r by lia. f_equal. lia.
  - assert (Hl : (Z.log2 m < 53)%Z) by (apply Z.log2_lt_pow2; lia).
    pose proof (Z.log2_nonneg m) as Hl0.
    apply (roundScaled_multiple _
             (m * 2 ^ (e - (e + Z.log2 m - 52) `max` 0))%Z).
    rewrite Hexp, <- Z.mul_assoc, <- Z.pow_add_r by lia.
    do 2 f_equal. lia.
Qed.


Lemma scale_pos : (0 < inject_Z scale)%Q.
Proof. reflexivity. Qed.

Lemma roundNonneg_scaled (x : Q) :
  (roundNonneg x * inject_Z scale
   == inject_Z (roundScaled (x * inject_Z scale)))%Q.
Proof.
  unfold roundNonneg. rewrite Qred_correct. field.
  intros Hz. pose proof scale_pos as Hp. rewrite Hz in Hp.
  exact (Qlt_irrefl _ Hp).
Qed.


Lemma scaled_nonneg (x : Q) : (0 <= x)%Q -> (0 <= x * inject_Z scale)%Q.
Proof.
  intros H. apply Qmult_le_0_compat; [exact H |].
  apply Qlt_le_weak, scale_pos.
Qed.


Lemma roundNonneg_mono (x y : Q) :
  (0 <= x)%Q -> (x <= y)%Q -> (roundNonneg x <= roundNonneg y)%Q.
Proof.
  intros H0 Hle. unfold roundNonneg. apply Qred_le.
  apply Qmult_le_compat_r;
    [| apply Qlt_le_weak, Qinv_lt_0_compat, scale_pos].
  rewrite <- Zle_Qle. apply roundScaled_mono; [apply scaled_nonneg, H0 |].
  apply Qmult_le_compat_r; [exact Hle | apply Qlt_le_weak, scale_pos].
Qed.


Lemma round_nonneg_eq (x : Q) : (0 <= x)%Q -> round x = roundNonneg x.
Proof.
  intros H. unfold round. apply Qle_bool_iff in H. rewrite H. reflexivity.
Qed.



Lemma round_mono (x y : Q) :
  (0 <= x)%Q -> (x <= y)%Q -> (round x <= round y)%Q.
Proof.
  intros H0 Hle.
  rewrite (round_nonneg_eq x H0), (round_nonneg_eq y (Qle_trans _ _ _ H0 Hle)).
  apply roundNonneg_mono; assumption.
Qed.


Lemma round_inject_Z (z : Z) :
  (0 <= z <= 2 ^ 53)%Z -> (round (inject_Z z) == inject_Z z)%Q.
Proof.
  intros Hz.
  assert (H0 : (0 <= inject_Z z)%Q).
  { change 0%Q with (inject_Z 0). rewrite <- Zle_Qle. lia. }
  rewrite (round_nonneg_eq _ H0). unfold roundNonneg. rewrite Qred_correct.
  rewrite <- inject_Z_mult. unfold scale.
  rewrite roundScaled_repr by lia.
  rewrite inject_Z_mult. field.
  intros Hc. pose proof scale_pos as Hp. unfold scale in Hp.
  rewrite Hc in Hp. exact (Qlt_irrefl _ Hp).
Qed.

Lemma Qfloor_lt (x : Q) (n : Z) : (x < inject_Z n)%Q -> (Qfloor x < n)%Z.
Proof.
  intros H. rewrite Zlt_Qlt.
  eapply Qle_lt_trans; [apply Qfloor_le | exact H].
Qed.

Lemma Qfloor_ge (x : Q) (n : Z) : (inject_Z n <= x)%Q -> (n <= Qfloor x)%Z.
Proof.
  intros H. rewrite <- (Qfloor_Z n). apply Qfloor_resp_le, H.
Qed.

(** The rounded value is within half a step of the exact one. *)
Lemma roundScaled_near (X : Q) :
  (inject_Z (roundScaled X)
   <= X + inject_Z (2 ^ exponent X) * (1 # 2))%Q.
Proof.
  unfold roundScaled.
  pose proof (pow2_pos _ (exponent_nonneg X)) as Hp.
  apply inject_Z_pos in Hp.
  destruct (rne_near (X / inject_Z (2 ^ exponent X))) as [_ Hhi].
  rewrite inject_Z_mult.
  apply (Qmult_le_compat_r _ _ (inject_Z (2 ^ exponent X))) in Hhi;
    [| apply Qlt_le_weak, Hp].
  eapply Qle_trans; [exact Hhi |].
  apply Qle_lteq. right. field.
  intros Hz. rewrite Hz in Hp. exact (Qlt_irrefl _ Hp).
Qed.

Lemma div_60_floor (s : Q) :
  (round s == s)%Q -> (0 <= s)%Q -> (s < inject_Z (2 ^ 53))%Q ->
  Qfloor (div s 60) = Qfloor (s / 60).
Proof.
  intros Hrep H0 Hbound.
  assert (Hq0 : (0 <= s / 60)%Q) by (apply Qle_shift_div_l; lra).
  assert (Hn0 : (0 <= Qfloor (s / 60))%Z) by (apply Qfloor_ge; exact Hq0).
  assert (Hn53 : (Qfloor (s / 60) <= 2 ^ 53)%Z).
  { apply Z.lt_le_incl, Qfloor_lt.
    apply Qle_lt_trans with s; [| exact Hbound].
    apply Qle_shift_div_r; lra. }
  apply Z.le_antisymm.
  2: { apply Qfloor_ge. unfold div.
       rewrite <- (round_inject_Z (Qfloor (s / 60))) by lia.
       apply round_mono; [| apply Qfloor_le].
       change 0%Q with (inject_Z 0). rewrite <- Zle_Qle. exact Hn0. }
  apply Z.lt_succ_r, Qfloor_lt. unfold Z.succ.
  set (n := (Qfloor (s / 60) + 1)%Z).
  assert (Hqn : (s / 60 < inject_Z n)%Q) by apply Qlt_floor.
  assert (Hn1 : (1 <= n)%Z) by (unfold n; lia).
  unfold div. rewrite (round_nonneg_eq _ Hq0). unfold roundNonneg.
  rewrite Qred_correct.
  apply Qlt_shift_div_r; [exact scale_pos |].
  rewrite <- inject_Z_mult, <- Zlt_Qlt.
  set (X := (s / 60 * inject_Z scale)%Q).
  assert (HX0 : (0 <= X)%Q) by (apply scaled_nonneg, Hq0).
  pose proof (roundScaled_near X) as Hnear.
  pose proof (exponent_nonneg X) as He0.
  destruct (Z.eq_dec (exponent X) 0%Z) as [He | He].
  - (* below the normal range of the quotient *)
    pose proof (exponent_upper X HX0) as Hup. rewrite He in *.
    assert (Hlt : (inject_Z (roundScaled X) < inject_Z (2 ^ 53 + 1))%Q).
    { eapply Qle_lt_trans; [exact Hnear |].
      rewrite inject_Z_plus. change (0 + 53)%Z with 53%Z in Hup.
      change (inject_Z (2 ^ 0) * (1 # 2))%Q with (1 # 2)%Q.
      change (inject_Z 1) with 1%Q.
      clear -Hup. clearbody X. revert Hup.
      generalize (inject_Z (2 ^ 53)). intros; lra. }
    rewrite <- Zlt_Qlt in Hlt.
    assert (Hsc : (2 ^ 53 + 1 <= scale)%Z) by (vm_compute; discriminate).
    nia.
  - (* the quotient is a normal number *)
    assert (Hepos : (0 < exponent X)%Z) by lia.
    pose proof (exponent_lower X Hepos) as Hlow.
    set (S := (s * inject_Z scale)%Q).
    assert (HS0 : (0 <= S)%Q) by (apply scaled_nonneg, H0).
    assert (HSX : (S == 60 * X)%Q) by (unfold S, X; field).
    assert (HSrep : (S == inject_Z (roundScaled S))%Q).
    { unfold S. rewrite <- roundNonneg_scaled, <- (round_nonneg_eq s H0), Hrep.
      reflexivity. }
    set (es := exponent S) in *.
    (* the exponent of the dividend is at least five above *)
    assert (Hes : (exponent X + 5 <= es)%Z).
    { unfold es, exponent at 2.
      assert (Hfl : (2 ^ (exponent X + 57) <= Qfloor S)%Z).
      { apply Qfloor_ge. rewrite HSX.
        apply Qle_trans with (32 * inject_Z (2 ^ (exponent X + 52)))%Q.
        - replace (exponent X + 57)%Z with (5 + (exponent X + 52))%Z by lia.
          rewrite Z.pow_add_r, inject_Z_mult by lia.
          change (inject_Z (2 ^ 5)) with 32%Q. apply Qle_refl.
        - lra. }
      assert (Hpos : (0 < Qfloor S)%Z).
      { pose proof (pow2_pos (exponent X + 57) ltac:(lia)). lia. }
      apply Z.log2_le_pow2 in Hfl; [lia | exact Hpos]. }
    assert (Hes' : (es <= 1074)%Z).
    { unfold es, exponent.
      assert (Hfl : (Qfloor S < 2 ^ 1127)%Z).
      { apply Qfloor_lt. unfold S.
        apply Qlt_le_trans with (inject_Z (2 ^ 53) * inject_Z scale)%Q.
        - apply Qmult_lt_compat_r; [exact scale_pos | exact Hbound].
        - rewrite <- inject_Z_mult. unfold scale.
          rewrite <- Z.pow_add_r by lia. apply Qle_refl. }
      destruct (Z.le_gt_cases (Qfloor S) 0) as [Hle | Hgt].
      - rewrite (Z.log2_nonpos _ Hle). lia.
      - apply Z.log2_lt_pow2 in Hfl; [lia | exact Hgt]. }
    unfold roundScaled in HSrep. fold es in HSrep.
    set (M := rne (S / inject_Z (2 ^ es))) in *.
    (* everything in integers *)
    assert (Hscale : scale = (2 ^ (1074 - es) * 2 ^ es)%Z).
    { unfold scale. rewrite <- Z.pow_add_r by lia. f_equal. lia. }
    assert (Hs60 : (s < 60 * inject_Z n)%Q).
    { clearbody n. clear -Hqn. revert Hqn. generalize (inject_Z n).
      intros q Hq. apply Qlt_shift_div_l in Hq; [| reflexivity].
      unfold Qdiv in Hq. rewrite Qinv_involutive in Hq.
      rewrite (Qmult_comm 60). exact Hq. }
    assert (Hlt : (M * 2 ^ es < 60 * n * scale)%Z).
    { rewrite Zlt_Qlt, <- HSrep, !inject_Z_mult. unfold S.
      change (inject_Z 60) with 60%Q.
      apply Qmult_lt_compat_r; [exact scale_pos | exact Hs60]. }
    pose proof (pow2_pos es ltac:(lia)) as Hpes.
    pose proof (pow2_pos (exponent X) He0) as Hpe.
    assert (Hstep : (M * 2 ^ es + 2 ^ es <= 60 * n * scale)%Z).
    { rewrite Hscale in Hlt |- *.
      replace (60 * n * (2 ^ (1074 - es) * 2 ^ es))%Z
        with ((60 * n * 2 ^ (1074 - es)) * 2 ^ es)%Z in Hlt |- * by ring.
      apply Z.mul_lt_mono_pos_r in Hlt; [| exact Hpes].
      replace (M * 2 ^ es + 2 ^ es)%Z with ((M + 1) * 2 ^ es)%Z by ring.
      apply Z.mul_le_mono_nonneg_r; lia. }
    assert (Hpow : (32 * 2 ^ exponent X <= 2 ^ es)%Z).
    { change 32%Z with (2 ^ 5)%Z. rewrite <- Z.pow_add_r by lia.
      apply Z.pow_le_mono_r; lia. }
    assert (Hround : (60 * roundScaled X
                      <= M * 2 ^ es + 30 * 2 ^ exponent X)%Z).
    { rewrite Zle_Qle, inject_Z_plus, (inject_Z_mult 60), (inject_Z_mult 30).
      rewrite <- HSrep, HSX.
      change (inject_Z 60) with 60%Q. change (inject_Z 30) with 30%Q.
      clear -Hnear. clearbody X. revert Hnear.
      generalize (inject_Z (roundScaled X)) (inject_Z (2 ^ exponent X)).
      intros; lra. }
    lia.
Qed.

End Rounding.

(** ** The start offset *)

Section StartOffset.

Import QuizEngine Binary64.



End StartOffset.



Section Float64Check.

Import PrimFloat.

(** The machine's binary64 arithmetic gives the same offsets as the rounding
    of [Binary64]: 75 for a duration of 100 and the largest random value
    below one, and the same inexact value for a duration of about 215.3 and
    a random value of about 0.7. *)
Example float64_offsets_agree :
  (0 <=? Float64.belowOne)%float = true
  /\ (Float64.belowOne <? 1)%float = true
  /\ Float64.toQ Float64.belowOne = Some (Qred belowOne)
  /\ Float64.getRandomStartPoint 100 Float64.belowOne = 75%float
  /\ (Float64.getRandomStartPoint 100 Float64.belowOne <? 75)%float = false
  /\ Float64.toQ (Float64.getRandomStartPoint 100 Float64.belowOne)
     = Some (QuizEngine.getRandomStartPoint 100 belowOne)
  /\ match Float64.toQ Float64.sampleDuration,
           Float64.toQ Float64.sampleRandom with
     | Some d, Some r =>
         Float64.toQ
           (Float64.getRandomStartPoint Float64.sampleDuration
              Float64.sampleRandom)
         = Some (QuizEngine.getRandomStartPoint d r)
         /\ QuizEngine.getRandomStartPoint d r
            <> Qred (d * 0.25 + r * (d * 0.75 - d * 0.25))
     | _, _ => False
     end.
Proof.
  split; [vm_compute; reflexivity |]. split; [vm_compute; reflexivity |].
  split; [vm_compute; reflexivity |]. split; [vm_compute; reflexivity |].
  split; [vm_compute; reflexivity |]. split; [vm_compute; reflexivity |].
  vm_compute. split; [reflexivity | discriminate].
Qed.

End Float64Check.

(** ** The sampling tick *)

Section SamplingTick.

Import AudioPlayer.





End SamplingTick.



(** * Further properties *)

(** ** Building the track table *)

Section TrackTable.

Lemma Map_get_set_eq (m : list (string * Track.t)) (k : string) (v : Track.t) :
  Map_get (Map_set m k v) k = Some v.
Proof.
  induction m as [| [k' v'] m IH]; simpl.
  - rewrite decide_True by reflexivity. reflexivity.
  - destruct (decide (k = k')) as [-> | Hne]; simpl.
    + rewrite decide_True by reflexivity. reflexivity.
    + rewrite decide_False by exact Hne. exact IH.
Qed.

Lemma Map_get_set_ne (m : list (string * Track.t)) (k k' : string)
    (v : Track.t) :
  k <> k' -> Map_get (Map_set m k v) k' = Map_get m k'.
Proof.
  intros Hne. induction m as [| [k0 v0] m IH]; simpl.
  - rewrite decide_False by congruence. reflexivity.
  - destruct (decide (k = k0)) as [-> | Hne0]; simpl.
    + destruct (decide (k' = k0)); [congruence | reflexivity].
    + destruct (decide (k' = k0)); [reflexivity | exact IH].
Qed.

Lemma Map_keys_set (m : list (string * Track.t)) (k : string) (v : Track.t) :
  Map_keys (Map_set m k v) = Set_add (Map_keys m) k.
Proof.
  unfold Map_keys, Set_add. induction m as [| [k' v'] m IH].
  - destruct (decide (k ∈ ([] : list (string * Track.t)).*1)) as [Hin | _];
      [inversion Hin | reflexivity].
  - cbn [Map_set]. destruct (decide (k = k')) as [-> | Hne].
    + destruct (decide (k' ∈ ((k', v') :: m).*1)) as [_ | Hnin];
        [reflexivity | destruct Hnin; left].
    + change (((k', v') :: Map_set m k v).*1) with (k' :: (Map_set m k v).*1).
      rewrite IH.
      change (((k', v') :: m).*1) with (k' :: m.*1).
      destruct (decide (k ∈ m.*1)) as [Hin | Hnin];
        destruct (decide (k ∈ k' :: m.*1)) as [Hin' | Hnin'].
      * reflexivity.
      * destruct Hnin'. right. exact Hin.
      * apply elem_of_cons in Hin' as [? | ?]; contradiction.
      * reflexivity.
Qed.

Lemma Map_get_is_Some (m : list (string * Track.t)) (k : string) :
  k ∈ Map_keys m -> is_Some (Map_get m k).
Proof.
  unfold Map_keys. induction m as [| [k' v'] m IH]; simpl; intros Hin.
  - inversion Hin.
  - destruct (decide (k = k')); [eauto |].
    apply elem_of_cons in Hin as [? | Hin]; [contradiction | exact (IH Hin)].
Qed.

Lemma Map_get_Some_key (m : list (string * Track.t)) (k : string)
    (v : Track.t) :
  Map_get m k = Some v -> k ∈ Map_keys m.
Proof.
  unfold Map_keys. induction m as [| [k' v'] m IH]; simpl; [discriminate |].
  destruct (decide (k = k')) as [-> | Hne]; [left |].
  intros H. right. exact (IH H).
Qed.

(** The loop, started from any table. *)
Lemma collect_from_keys (parsed : list Track.t) :
  forall m : list (string * Track.t),
    Map_keys (foldl (fun m track => Map_set m (Track.id track) track) m parsed)
    = foldl Set_add (Map_keys m) (Track.id <$> parsed).
Proof.
  induction parsed as [| t parsed IH]; intros m; simpl; [reflexivity |].
  rewrite IH, Map_keys_set. reflexivity.
Qed.

Lemma collect_from_get (parsed : list Track.t) (k : string) :
  forall m : list (string * Track.t),
    Map_get (foldl (fun m track => Map_set m (Track.id track) track) m parsed) k
    = match last (filter (fun track => Track.id track = k) parsed) with
      | Some track => Some track
      | None => Map_get m k
      end.
Proof.
  induction parsed as [| t parsed IH]; intros m; simpl; [reflexivity |].
  rewrite IH, filter_cons.
  destruct (decide (Track.id t = k)) as [<- | Hne].
  - rewrite last_cons.
    destruct (last (filter _ parsed)); [reflexivity |].
    apply Map_get_set_eq.
  - destruct (last (filter _ parsed)); [reflexivity |].
    apply Map_get_set_ne, Hne.
Qed.

(** X1. The table that the ingestion loops build has one key per distinct
    id, in the order in which the ids first occur; the entry of an id is the
    last track parsed with that id; so every entry is stored under its own
    id, and a session made of the table is keyed by id. *)
Theorem collectTracks_keyed_last_wins (parsed : list Track.t) :
  Map_keys (collectTracks parsed) = Set_from (Track.id <$> parsed)
  /\ NoDup (Map_keys (collectTracks parsed))
  /\ (forall k,
        Map_get (collectTracks parsed) k
        = last (filter (fun track => Track.id track = k) parsed))
  /\ (forall player, keyedById (QuizEngine.new (collectTracks parsed) player)).
Proof.
  assert (Hget : forall k,
             Map_get (collectTracks parsed) k
             = last (filter (fun track => Track.id track = k) parsed)).
  { intros k. unfold collectTracks. rewrite collect_from_get. simpl.
    destruct (last _); reflexivity. }
  assert (Hkeys : Map_keys (collectTracks parsed)
                  = Set_from (Track.id <$> parsed)).
  { unfold collectTracks. rewrite collect_from_keys. reflexivity. }
  split; [exact Hkeys |]. split; [rewrite Hkeys; apply Set_from_NoDup |].
  split; [exact Hget |].
  intros player k track. simpl. rewrite Hget. intros Hlast.
  apply last_Some_elem_of, list_elem_of_filter in Hlast. tauto.
Qed.

End TrackTable.

(** ** Playlist trees from the database and from the XML export *)

Section PlaylistTrees.

(** Induction over a tree with the hypothesis for every child. *)
Lemma DatabasePlaylistNode_deep_ind (P : DatabasePlaylistNode.t -> Prop) :
  (forall name type children trackIds smart,
      match children with Some cs => Forall P cs | None => True end ->
      P (DatabasePlaylistNode.mk name type children trackIds smart)) ->
  forall node, P node.
Proof.
  intros Hnode. fix IH 1. intros [name type [cs |] trackIds smart].
  - apply Hnode. induction cs as [| c cs IHcs]; constructor;
      [apply IH | exact IHcs].
  - apply Hnode. exact I.
Qed.

Lemma XmlNode_deep_ind (P : XmlNode.t -> Prop) :
  (forall name type children refs,
      match children with Some cs => Forall P cs | None => True end ->
      P (XmlNode.mk name type children refs)) ->
  forall node, P node.
Proof.
  intros Hnode. fix IH 1. intros [name type [cs |] refs].
  - apply Hnode. induction cs as [| c cs IHcs]; constructor;
      [apply IH | exact IHcs].
  - apply Hnode. exact I.
Qed.

(** The children of a converted node are the converted children. *)
Lemma convertPlaylistNode_children (node : DatabasePlaylistNode.t) :
  PlaylistNode.children (convertPlaylistNode node)
  = convertPlaylistNode
      <$> match DatabasePlaylistNode.children node with
          | Some cs => cs
          | None => []
          end.
Proof.
  destruct node as [name type [cs |] trackIds smart]; simpl; [| reflexivity].
  induction cs as [| c cs IH]; simpl; [reflexivity | rewrite IH; reflexivity].
Qed.

(** X2. Converting a database node keeps its name, type and smart flag and
    converts its children in order, a missing [children] or [trackIds]
    counting as empty. So a converted playlist flattens to its [trackIds]
    (to nothing when the field is missing, whatever the smart flag says),
    and a converted folder flattens to a duplicate-free list of exactly the
    ids in the flattenings of its converted children (to nothing when it has
    none). *)
Theorem convertPlaylistNode_flatten (node : DatabasePlaylistNode.t) :
  PlaylistNode.name (convertPlaylistNode node) = DatabasePlaylistNode.name node
  /\ PlaylistNode.type (convertPlaylistNode node)
     = DatabasePlaylistNode.type node
  /\ PlaylistNode.isSmartPlaylist (convertPlaylistNode node)
     = DatabasePlaylistNode.isSmartPlaylist node
  /\ PlaylistNode.children (convertPlaylistNode node)
     = convertPlaylistNode
         <$> default [] (DatabasePlaylistNode.children node)
  /\ PlaylistNode.trackIds (convertPlaylistNode node)
     = default [] (DatabasePlaylistNode.trackIds node)
  /\ match DatabasePlaylistNode.type node with
     | PlaylistNode.playlist =>
         getAllTrackIdsFromPlaylist (convertPlaylistNode node)
         = default [] (DatabasePlaylistNode.trackIds node)
     | PlaylistNode.folder =>
         NoDup (getAllTrackIdsFromPlaylist (convertPlaylistNode node))
         /\ forall id,
              id ∈ getAllTrackIdsFromPlaylist (convertPlaylistNode node)
              <-> exists child,
                    child ∈ default [] (DatabasePlaylistNode.children node)
                    /\ id ∈ getAllTrackIdsFromPlaylist
                             (convertPlaylistNode child)
     end.
Proof.
  pose proof (convertPlaylistNode_children node) as Hchildren.
  destruct node as [name type children trackIds smart].
  split; [reflexivity |]. split; [reflexivity |]. split; [reflexivity |].
  split; [destruct children; exact Hchildren |].
  split; [destruct trackIds; reflexivity |].
  destruct type.
  - (* folder *)
    change (getAllTrackIdsFromPlaylist
              (convertPlaylistNode
                 (DatabasePlaylistNode.mk name PlaylistNode.folder children
                    trackIds smart)))
      with (Set_from
              ((fix push (cs : list PlaylistNode.t) : list string :=
                  match cs with
                  | [] => []
                  | child :: cs' => getAllTrackIdsFromPlaylist child ++ push cs'
                  end)
                 (PlaylistNode.children
                    (convertPlaylistNode
                       (DatabasePlaylistNode.mk name PlaylistNode.folder
                          children trackIds smart))))).
    rewrite Hchildren. split; [apply Set_from_NoDup |].
    intros id. rewrite Set_from_elem, push_children_elem. simpl. split.
    + intros (child' & Hin & Hid).
      apply list_elem_of_fmap in Hin as (child & -> & Hin).
      exists child. destruct children; auto.
    + intros (child & Hin & Hid). exists (convertPlaylistNode child).
      split; [| exact Hid]. apply list_elem_of_fmap.
      exists child. destruct children; auto.
  - (* playlist *)
    destruct trackIds; reflexivity.
Qed.

Lemma trackRefKeys_nonempty (refs : list (option string)) :
  forallb (fun id => bool_decide (id <> "")) (trackRefKeys refs) = true.
Proof.
  unfold trackRefKeys. induction refs as [| ref refs IH]; [reflexivity |].
  rewrite fmap_cons, filter_cons.
  destruct (decide (match ref with Some key => key | None => "" end <> ""))
    as [Hne | _]; [| exact IH].
  simpl. rewrite IH, bool_decide_true by exact Hne. reflexivity.
Qed.

Lemma parsePlaylistNode_nodeInvariant (trackIdMap : list (string * string))
    (node : XmlNode.t) :
  nodeInvariant (parsePlaylistNode node trackIdMap) = true.
Proof.
  induction node as [name type children refs IH] using XmlNode_deep_ind.
  simpl. case_bool_decide; simpl.
  - destruct children as [cs |]; [| reflexivity].
    induction cs as [| c cs IHcs]; [reflexivity |].
    apply Forall_cons in IH as [Hc Hcs]. rewrite Hc. exact (IHcs Hcs).
  - destruct refs as [refs |]; [apply trackRefKeys_nonempty | reflexivity].
Qed.

Lemma parsePlaylistNode_ignores_map (trackIdMap : list (string * string))
    (node : XmlNode.t) :
  parsePlaylistNode node trackIdMap = parsePlaylistNode node [].
Proof.
  induction node as [name type children refs IH] using XmlNode_deep_ind.
  simpl. case_bool_decide; [| reflexivity].
  f_equal. destruct children as [cs |]; [| reflexivity].
  induction cs as [| c cs IHcs]; [reflexivity |].
  apply Forall_cons in IH as [Hc Hcs]. rewrite Hc, (IHcs Hcs). reflexivity.
Qed.

(** X3. Whatever the XML holds, the tree that [parsePlaylistNode] returns
    keeps the data model's invariant at every depth (folders carry no track
    ids; playlists carry no children and no empty id) and has no smart flag;
    a node whose [Type] is not ["0"] becomes a playlist whose ids are the
    non-empty [Key]s of its [TRACK] references, in order. The [trackIdMap]
    argument is never consulted, so references to ids that the collection
    lacks are kept. The playlist tree of [parseRekordboxXml] keeps the
    invariant as well: it is the parse of the first [NODE] of the
    [PLAYLISTS] section, and without a section, without a [NODE] in it or
    with an empty [NODE] array it is the folder named ["ROOT"] with no
    children, no track ids and no smart flag. *)
Theorem parsePlaylistNode_invariant (node : XmlNode.t)
    (playlistsSection : option (option (list XmlNode.t)))
    (trackIdMap : list (string * string)) :
  nodeInvariant (parsePlaylistNode node trackIdMap) = true
  /\ PlaylistNode.isSmartPlaylist (parsePlaylistNode node trackIdMap) = None
  /\ parsePlaylistNode node trackIdMap = parsePlaylistNode node []
  /\ (if bool_decide (XmlNode.attr_Type node = Some "0")
      then PlaylistNode.type (parsePlaylistNode node trackIdMap)
           = PlaylistNode.folder
      else PlaylistNode.type (parsePlaylistNode node trackIdMap)
           = PlaylistNode.playlist
           /\ getAllTrackIdsFromPlaylist (parsePlaylistNode node trackIdMap)
              = trackRefKeys (default [] (XmlNode.TRACK node)))
  /\ nodeInvariant (parseRekordboxXml_playlists playlistsSection trackIdMap)
     = true
  /\ (forall rest,
        parseRekordboxXml_playlists (Some (Some (node :: rest))) trackIdMap
        = parsePlaylistNode node trackIdMap)
  /\ parseRekordboxXml_playlists None trackIdMap
     = PlaylistNode.mk "ROOT" PlaylistNode.folder [] [] None
  /\ parseRekordboxXml_playlists (Some None) trackIdMap
     = PlaylistNode.mk "ROOT" PlaylistNode.folder [] [] None
  /\ parseRekordboxXml_playlists (Some (Some [])) trackIdMap
     = PlaylistNode.mk "ROOT" PlaylistNode.folder [] [] None
  /\ getAllTrackIdsFromPlaylist (parseRekordboxXml_playlists None trackIdMap)
     = [].
Proof.
  split; [apply parsePlaylistNode_nodeInvariant |].
  split; [destruct node; simpl; case_bool_decide; reflexivity |].
  split; [apply parsePlaylistNode_ignores_map |].
  split.
  - destruct node as [name type children refs]; simpl.
    case_bool_decide; simpl; [reflexivity |].
    split; [reflexivity | destruct refs; reflexivity].
  - split; [| repeat split].
    destruct playlistsSection as [[[| rootNode rest] |] |]; try reflexivity.
    apply parsePlaylistNode_nodeInvariant.
Qed.

End PlaylistTrees.

(** The sample export: the second row for id ["2"] replaces the first where
    it stands, its missing duration is zero, and the playlist without
    [trackIds] flattens to nothing. *)
Example readRekordboxDatabase_convert_sample :
  Map_keys (readRekordboxDatabase_convert sampleRows sampleDatabaseTree).1
  = ["1"; "2"]
  /\ Track.name
       <$> Map_get
             (readRekordboxDatabase_convert sampleRows sampleDatabaseTree).1 "2"
     = Some "Beta (remix)"
  /\ Track.duration
       <$> Map_get
             (readRekordboxDatabase_convert sampleRows sampleDatabaseTree).1 "2"
     = Some 0%Q
  /\ getAllTrackIdsFromPlaylist
       (readRekordboxDatabase_convert sampleRows sampleDatabaseTree).2
     = ["2"; "1"].
Proof. repeat split. Qed.

(** The sample XML tree: the reference without key and the one with an
    empty key are dropped, the one to the unknown id ["9"] is kept. *)
Example parsePlaylistNode_sample :
  getAllTrackIdsFromPlaylist
    (parsePlaylistNode sampleXmlTree (identityIdMap library3))
  = ["1"; "9"].
Proof. reflexivity. Qed.

(** ** Flattening, in order *)

Section FlattenOrder.

Lemma PlaylistNode_deep_ind (P : PlaylistNode.t -> Prop) :
  (forall name type children trackIds smart,
      Forall P children ->
      P (PlaylistNode.mk name type children trackIds smart)) ->
  forall node, P node.
Proof.
  intros Hnode. fix IH 1. intros [name type cs trackIds smart].
  apply Hnode. induction cs as [| c cs IHcs]; constructor;
    [apply IH | exact IHcs].
Qed.

(** Adding to a set the members of a set made from a list is adding the
    list. *)
Lemma foldl_Set_add_absorb (l : list string) :
  forall acc acc' : list string,
    foldl Set_add acc (foldl Set_add acc' l)
    = foldl Set_add (foldl Set_add acc acc') l.
Proof.
  induction l as [| x l IH]; intros acc acc'; simpl; [reflexivity |].
  rewrite IH. f_equal.
  unfold Set_add at 2 3.
  destruct (decide (x ∈ acc')) as [Hin | Hnin].
  - rewrite decide_True; [reflexivity |].
    apply foldl_Set_add_elem. right. exact Hin.
  - rewrite foldl_app. reflexivity.
Qed.

Lemma foldl_Set_add_Set_from (acc l : list string) :
  foldl Set_add acc (Set_from l) = foldl Set_add acc l.
Proof. unfold Set_from. rewrite foldl_Set_add_absorb. reflexivity. Qed.

(** A list without repetition is its own set. *)
Lemma foldl_Set_add_NoDup_app (l : list string) :
  forall acc : list string,
    NoDup (acc ++ l) -> foldl Set_add acc l = acc ++ l.
Proof.
  induction l as [| x l IH]; intros acc Hnd; simpl.
  - rewrite app_nil_r. reflexivity.
  - assert (Hx : x ∉ acc).
    { apply NoDup_app in Hnd as (_ & Hdisj & _). intros Hin.
      apply (Hdisj x Hin). left. }
    unfold Set_add at 2. rewrite decide_False by exact Hx.
    rewrite IH; rewrite <- app_assoc; [reflexivity | exact Hnd].
Qed.

Lemma Set_from_NoDup_id (l : list string) : NoDup l -> Set_from l = l.
Proof. intros Hnd. unfold Set_from. apply foldl_Set_add_NoDup_app, Hnd. Qed.

(** The members of a set made from a list stand in the order in which the
    list first has them. *)
Lemma foldl_Set_add_sublist (l : list string) :
  forall acc : list string,
    exists l', foldl Set_add acc l = acc ++ l' /\ sublist l' l.
Proof.
  induction l as [| x l IH]; intros acc; simpl.
  - exists []. rewrite app_nil_r. split; [reflexivity | constructor].
  - destruct (IH (Set_add acc x)) as (l' & Heq & Hsub). rewrite Heq.
    unfold Set_add. destruct (decide (x ∈ acc)).
    + exists l'. split; [reflexivity | apply sublist_cons, Hsub].
    + exists (x :: l'). rewrite <- app_assoc.
      split; [reflexivity | apply sublist_skip, Hsub].
Qed.

(** Flattening a node and listing the references below it add the same
    members to any set. *)
Lemma flatten_references_foldl (node : PlaylistNode.t) :
  forall acc : list string,
    foldl Set_add acc (getAllTrackIdsFromPlaylist node)
    = foldl Set_add acc (referencesBelow node).
Proof.
  induction node as [name type children trackIds smart IH]
    using PlaylistNode_deep_ind.
  intros acc. unfold referencesBelow. destruct type; simpl.
  - rewrite foldl_Set_add_Set_from. revert acc.
    induction children as [| c cs IHcs]; intros acc; [reflexivity |].
    apply Forall_cons in IH as [Hc Hcs].
    rewrite fmap_app, concat_app, !foldl_app.
    rewrite Hc. unfold referencesBelow. apply (IHcs Hcs).
  - rewrite app_nil_r. reflexivity.
Qed.

Lemma elem_of_concat (x : string) (ls : list (list string)) :
  x ∈ concat ls <-> exists l, x ∈ l /\ l ∈ ls.
Proof.
  induction ls as [| l ls IH]; simpl.
  - split; [intros H; inversion H | intros (l & _ & H); inversion H].
  - rewrite elem_of_app, IH. split.
    + intros [Hx | (l' & Hx & Hl')].
      * exists l. split; [exact Hx | left].
      * exists l'. split; [exact Hx | right; exact Hl'].
    + intros (l' & Hx & Hl'). apply elem_of_cons in Hl' as [-> | Hl'].
      * left. exact Hx.
      * right. eauto.
Qed.

Lemma playlistsBelow_type (node : PlaylistNode.t) :
  forall pl, pl ∈ playlistsBelow node ->
             PlaylistNode.type pl = PlaylistNode.playlist.
Proof.
  induction node as [name type children trackIds smart IH]
    using PlaylistNode_deep_ind.
  intros pl. destruct type; simpl.
  - induction children as [| c cs IHcs]; [intros H; inversion H |].
    apply Forall_cons in IH as [Hc Hcs]. rewrite elem_of_app.
    intros [Hin | Hin]; [exact (Hc pl Hin) | exact (IHcs Hcs Hin)].
  - intros Hin. apply list_elem_of_singleton in Hin. subst pl. reflexivity.
Qed.

(** X4. What flattening a folder returns is exactly the track references of
    the playlists below it, read in tree order and each id kept where it
    first occurs: the folder's own [trackIds], the children of playlists and
    the smart flags play no part. For any node, an id is in the flattening
    exactly when a playlist below the node refers to it. *)
Theorem flatten_is_first_occurrences (node : PlaylistNode.t) :
  Set_from (getAllTrackIdsFromPlaylist node) = Set_from (referencesBelow node)
  /\ match PlaylistNode.type node with
     | PlaylistNode.folder =>
         getAllTrackIdsFromPlaylist node = Set_from (referencesBelow node)
         /\ sublist (getAllTrackIdsFromPlaylist node) (referencesBelow node)
     | PlaylistNode.playlist =>
         getAllTrackIdsFromPlaylist node = referencesBelow node
     end
  /\ forall id,
       id ∈ getAllTrackIdsFromPlaylist node
       <-> exists pl, pl ∈ playlistsBelow node
                      /\ PlaylistNode.type pl = PlaylistNode.playlist
                      /\ id ∈ PlaylistNode.trackIds pl.
Proof.
  assert (Hset : Set_from (getAllTrackIdsFromPlaylist node)
                 = Set_from (referencesBelow node))
    by apply flatten_references_foldl.
  pose proof (playlistsBelow_type node) as Hpl.
  split; [exact Hset |]. split.
  - destruct node as [name [] children trackIds smart];
      cbn [PlaylistNode.type].
    + assert (Hfolder :
                getAllTrackIdsFromPlaylist
                  (PlaylistNode.mk name PlaylistNode.folder children trackIds
                     smart)
                = Set_from
                    (referencesBelow
                       (PlaylistNode.mk name PlaylistNode.folder children
                          trackIds smart))).
      { rewrite <- Hset. symmetry. apply Set_from_NoDup_id.
        simpl. apply Set_from_NoDup. }
      split; [exact Hfolder |]. rewrite Hfolder.
      destruct (foldl_Set_add_sublist
                  (referencesBelow
                     (PlaylistNode.mk name PlaylistNode.folder children
                        trackIds smart)) [])
        as (l' & Heq & Hsub).
      unfold Set_from. rewrite Heq. exact Hsub.
    + unfold referencesBelow. simpl. rewrite app_nil_r. reflexivity.
  - intros id. rewrite <- (Set_from_elem (getAllTrackIdsFromPlaylist node)).
    rewrite Hset, Set_from_elem. unfold referencesBelow.
    rewrite elem_of_concat. split.
    + intros (ids & Hid & Hids).
      apply list_elem_of_fmap in Hids as (pl & -> & Hin).
      exists pl. auto.
    + intros (pl & Hin & _ & Hid). exists (PlaylistNode.trackIds pl).
      split; [exact Hid |]. apply list_elem_of_fmap. eauto.
Qed.

(** X5. Folders whose playlists, read in tree order, carry the same track
    lists flatten to the same list: how the playlists are grouped into
    sub-folders makes no difference. *)
Theorem flatten_ignores_grouping
    (name name' : string) (children children' : list PlaylistNode.t)
    (trackIds trackIds' : list string) (smart smart' : option bool)
    (Hsame :
       PlaylistNode.trackIds
         <$> playlistsBelow
               (PlaylistNode.mk name PlaylistNode.folder children trackIds smart)
       = PlaylistNode.trackIds
           <$> playlistsBelow
                 (PlaylistNode.mk name' PlaylistNode.folder children' trackIds'
                    smart')) :
  getAllTrackIdsFromPlaylist
    (PlaylistNode.mk name PlaylistNode.folder children trackIds smart)
  = getAllTrackIdsFromPlaylist
      (PlaylistNode.mk name' PlaylistNode.folder children' trackIds' smart').
Proof.
  assert (Hfolder : forall n cs ids sm,
            getAllTrackIdsFromPlaylist
              (PlaylistNode.mk n PlaylistNode.folder cs ids sm)
            = Set_from
                (referencesBelow
                   (PlaylistNode.mk n PlaylistNode.folder cs ids sm))).
  { intros n cs ids sm. unfold Set_from at 1.
    rewrite <- flatten_references_foldl. symmetry.
    apply Set_from_NoDup_id. simpl. apply Set_from_NoDup. }
  rewrite !Hfolder. unfold referencesBelow. rewrite Hsame. reflexivity.
Qed.

End FlattenOrder.

Lemma flatten_ignores_grouping_witness :
  getAllTrackIdsFromPlaylist folderFlat = getAllTrackIdsFromPlaylist folderNested
  /\ getAllTrackIdsFromPlaylist folderNested = ["1"; "2"; "3"].
Proof.
  split; [| reflexivity].
  apply (flatten_ignores_grouping "flat" "nested"). reflexivity.
Defined.

(** ** Sessions between calls *)

Section SessionRuns.

Import QuizEngine.

Variable convertFileSrc : string -> string.

#[local] Abbreviation body := (nextTrack_body convertFileSrc).
#[local] Abbreviation loop := (nextTrack_loop convertFileSrc).

(** What an iteration of the retry loop does to the session, whether it
    goes on or returns. *)
Lemma nextTrack_body_frame (w : Attempt.t) (s s' : QuizEngine.t) :
  body w s = inl s' \/ body w s = inr s' ->
  tracks s' = tracks s
  /\ activeTrackIds s' = activeTrackIds s
  /\ (usedTrackIds s'
      = usedTrackIds (getRandomUnusedTrack (Attempt.randomDraw w) s).1
      \/ exists track,
           (getRandomUnusedTrack (Attempt.randomDraw w) s).2 = Some track
           /\ usedTrackIds s'
              = {[Track.id track]}
                ∪ usedTrackIds (getRandomUnusedTrack (Attempt.randomDraw w) s).1)
  /\ ((currentTrack s' = currentTrack s /\ isRevealed s' = isRevealed s)
      \/ exists track,
           (getRandomUnusedTrack (Attempt.randomDraw w) s).2 = Some track
           /\ currentTrack s' = Some track /\ isRevealed s' = false)
  /\ (playbackState s = AudioPlayer.state (player s) ->
      playbackState s' = AudioPlayer.state (player s'))
  /\ (PlaybackState.maxPlayTime (AudioPlayer.state (player s)) = 30%Q ->
      PlaybackState.maxPlayTime (AudioPlayer.state (player s')) = 30%Q).
Proof.
  unfold nextTrack_body. rewrite getRandomUnusedTrack_spec.
  destruct (selectedId (Attempt.randomDraw w) s) as [k |];
    [destruct (Map_get (tracks s) k) as [track |];
     [destruct (checkTrackExists w track);
      [unfold AudioPlayer.load;
       destruct (Attempt.metadata w (Track.location track)) |] |] |];
    destruct (unusedIds s); cbn;
    intros [H | H]; inversion H; subst; clear H; cbn;
    repeat match goal with |- _ /\ _ => split end;
    try reflexivity; try (intros; assumption);
    try (left; reflexivity); try (left; split; reflexivity);
    try (right; eexists; repeat split; reflexivity).
  all: intros _; try destruct (Attempt.playStarted w);
    destruct (player s) as [a st []]; reflexivity.
Qed.

Lemma draw_result_inScope (r : Q) (s : QuizEngine.t) (track : Track.t) :
  (getRandomUnusedTrack r s).2 = Some track -> inScope s track.
Proof.
  rewrite getRandomUnusedTrack_spec. simpl.
  destruct (selectedId r s) as [k |] eqn:Hsel; [| discriminate].
  intros Hget. exists k. split; [exact (selectedId_active _ _ _ Hsel) | exact Hget].
Qed.

Lemma draw_used_subset (r : Q) (s : QuizEngine.t) (id : string) :
  id ∈ usedTrackIds (getRandomUnusedTrack r s).1 -> id ∈ usedTrackIds s.
Proof.
  rewrite getRandomUnusedTrack_spec. simpl.
  destruct (unusedIds s); simpl; [intros H; apply elem_of_empty in H as [] |].
  auto.
Qed.

Lemma nextTrack_body_sessionInv (tracks0 : list (string * Track.t))
    (w : Attempt.t) (s s' : QuizEngine.t) :
  body w s = inl s' \/ body w s = inr s' ->
  sessionInv tracks0 s -> sessionInv tracks0 s'.
Proof.
  intros Hbody (Htr & Hpb & Hcur & Hused).
  destruct (nextTrack_body_frame w s s' Hbody)
    as (Htr' & Hact' & Hused' & Hcur' & Hpb' & _).
  split; [congruence |]. split; [exact (Hpb' Hpb) |]. split.
  - destruct Hcur' as [[Hc Hr] | (track & Hdraw & Hc & Hr)].
    + rewrite Hc, Hr. destruct (currentTrack s) as [track |]; [| exact Hcur].
      destruct Hcur as (k & Hk & Hget). exists k. rewrite Hact', Htr'. auto.
    + rewrite Hc. apply draw_result_inScope in Hdraw as (k & Hk & Hget).
      exists k. rewrite Hact', Htr'. auto.
  - intros Hkeyed id Hid. rewrite Hact'.
    destruct Hused' as [Hu | (track & Hdraw & Hu)]; rewrite Hu in Hid.
    + apply (Hused Hkeyed), (draw_used_subset _ _ _ Hid).
    + apply elem_of_union in Hid as [Hid | Hid].
      * apply elem_of_singleton in Hid. subst id.
        apply draw_result_inScope in Hdraw as (k & Hk & Hget).
        rewrite Htr in Hget. rewrite (Hkeyed k track Hget). exact Hk.
      * apply (Hused Hkeyed), (draw_used_subset _ _ _ Hid).
Qed.

Lemma nextTrack_loop_sessionInv (tracks0 : list (string * Track.t))
    (ws : nat -> Attempt.t) (remaining : nat) :
  forall (attempts : nat) (s : QuizEngine.t),
    sessionInv tracks0 s -> sessionInv tracks0 (loop ws remaining attempts s).
Proof.
  induction remaining as [| remaining IH]; intros attempts s Hinv; simpl.
  - destruct Hinv as (Htr & Hpb & _ & Hused). repeat split; assumption.
  - destruct (body (ws attempts) s) as [s' | s'] eqn:Hbody.
    + apply IH, (nextTrack_body_sessionInv tracks0 (ws attempts) s s'); auto.
    + apply (nextTrack_body_sessionInv tracks0 (ws attempts) s s'); auto.
Qed.

Lemma nextTrack_loop_cap (ws : nat -> Attempt.t) (remaining : nat) :
  forall (attempts : nat) (s : QuizEngine.t),
    PlaybackState.maxPlayTime (AudioPlayer.state (player s)) = 30%Q ->
    PlaybackState.maxPlayTime
      (AudioPlayer.state (player (loop ws remaining attempts s))) = 30%Q.
Proof.
  induction remaining as [| remaining IH]; intros attempts s Hcap; simpl.
  - exact Hcap.
  - destruct (body (ws attempts) s) as [s' | s'] eqn:Hbody.
    + apply IH. apply (nextTrack_body_frame (ws attempts) s s'); auto.
    + apply (nextTrack_body_frame (ws attempts) s s'); auto.
Qed.

(** A player call that ends with a notification keeps the invariant. *)
Lemma withPlayer_sessionInv (tracks0 : list (string * Track.t))
    (f : AudioPlayer.t -> AudioPlayer.t) (s : QuizEngine.t) :
  sessionInv tracks0 s -> sessionInv tracks0 (withPlayer f s).
Proof.
  intros (Htr & _ & Hcur & Hused). repeat split; assumption.
Qed.

Lemma apply_sessionInv (tracks0 : list (string * Track.t))
    (op : Session.Operation) (s : QuizEngine.t) :
  sessionInv tracks0 s ->
  sessionInv tracks0 (Session.apply convertFileSrc op s).
Proof.
  intros Hinv.
  destruct op; simpl; try (apply withPlayer_sessionInv; exact Hinv).
  - (* reset *)
    destruct Hinv as (Htr & _). repeat split; [exact Htr |].
    intros _ id Hid. apply elem_of_empty in Hid as [].
  - (* filter *)
    destruct Hinv as (Htr & _).
    destruct playlist; (repeat split; [exact Htr |]);
      intros _ id Hid; apply elem_of_empty in Hid as [].
  - (* nextTrack *)
    apply nextTrack_loop_sessionInv.
    destruct Hinv as (Htr & _ & Hcur & Hused). repeat split; assumption.
  - (* reveal *)
    destruct Hinv as (Htr & Hpb & Hcur & Hused). unfold reveal.
    destruct (currentTrack s) as [track |] eqn:Hc.
    + repeat split; try assumption. simpl. rewrite Hc. exact Hcur.
    + repeat split; try assumption. rewrite Hc. exact Hcur.
  - (* tick *)
    destruct (AudioPlayer.updateInterval (player s));
      [apply withPlayer_sessionInv |]; exact Hinv.
  - (* the element's clock *)
    destruct Hinv as (Htr & Hpb & Hcur & Hused). repeat split; assumption.
Qed.

Lemma apply_flags (op : Session.Operation) (s : QuizEngine.t) :
  isLoading s = false ->
  error s = None \/ error s = Some "No tracks available"
  \/ error s = Some "Could not find a playable track" ->
  isLoading (Session.apply convertFileSrc op s) = false
  /\ (error (Session.apply convertFileSrc op s) = None
      \/ error (Session.apply convertFileSrc op s) = Some "No tracks available"
      \/ error (Session.apply convertFileSrc op s)
         = Some "Could not find a playable track").
Proof.
  intros Hload Herr.
  destruct op; simpl; try (split; assumption).
  - split; [reflexivity | left; reflexivity].
  - destruct playlist; (split; [reflexivity | left; reflexivity]).
  - destruct (nextTrack_loop_outcome convertFileSrc ws maxAttempts 0
                (nextTrack_enter s) eq_refl) as (Hl & He).
    split; [exact Hl |].
    destruct He as [[He _] | [He | [He _]]]; auto.
  - unfold reveal. destruct (currentTrack s); split; assumption.
  - destruct (AudioPlayer.updateInterval (player s)); split; assumption.
Qed.

Lemma apply_cap (op : Session.Operation) (s : QuizEngine.t) :
  PlaybackState.maxPlayTime (AudioPlayer.state (player s)) = 30%Q ->
  PlaybackState.maxPlayTime
    (AudioPlayer.state (player (Session.apply convertFileSrc op s))) = 30%Q.
Proof.
  intros Hcap.
  destruct op; try (apply nextTrack_loop_cap; reflexivity);
    destruct s as [tr act cur rev ld er pb us [a st ui]]; simpl in *;
    try exact Hcap; try reflexivity.
  - destruct cur; exact Hcap.
  - unfold AudioPlayer.toggle, AudioPlayer.play, AudioPlayer.handlePlay,
      AudioPlayer.startUpdateLoop; simpl.
    destruct (PlaybackState.isPlaying st), started, ui; exact Hcap.
  - destruct ui; exact Hcap.
  - destruct ui; exact Hcap.
  - destruct ui; exact Hcap.
  - destruct ui; exact Hcap.
  - destruct ui; simpl; [| exact Hcap].
    unfold AudioPlayer.tick; simpl. destruct (Qle_bool _ _); exact Hcap.
Qed.

Lemma run_preserves (P : QuizEngine.t -> Prop) :
  (forall op s, P s -> P (Session.apply convertFileSrc op s)) ->
  forall ops s, P s -> P (Session.run convertFileSrc ops s).
Proof.
  intros Hstep ops. unfold Session.run.
  induction ops as [| op ops IH]; intros s Hs; simpl; [exact Hs |].
  apply IH, Hstep, Hs.
Qed.

Lemma new_sessionInv (tracks0 : list (string * Track.t))
    (p : AudioPlayer.t) :
  sessionInv tracks0 (QuizEngine.new tracks0 p).
Proof.
  repeat split. intros _ id Hid. apply elem_of_empty in Hid as [].
Qed.

(** X6. Between two calls a session is never loading, is never revealed
    without a current track, and its error is absent or one of the two
    messages of [nextTrack]: this holds after any sequence of engine calls,
    element events and ticks on a new session. *)
Theorem session_flags_between_calls (tracks0 : list (string * Track.t))
    (p : AudioPlayer.t) (ops : list Session.Operation) :
  isLoading (Session.run convertFileSrc ops (QuizEngine.new tracks0 p)) = false
  /\ match currentTrack
             (Session.run convertFileSrc ops (QuizEngine.new tracks0 p)) with
     | Some _ => True
     | None =>
         isRevealed (Session.run convertFileSrc ops (QuizEngine.new tracks0 p))
         = false
     end
  /\ (error (Session.run convertFileSrc ops (QuizEngine.new tracks0 p)) = None
      \/ error (Session.run convertFileSrc ops (QuizEngine.new tracks0 p))
         = Some "No tracks available"
      \/ error (Session.run convertFileSrc ops (QuizEngine.new tracks0 p))
         = Some "Could not find a playable track").
Proof.
  pose proof (run_preserves
                (fun s =>
                   isLoading s = false
                   /\ (error s = None \/ error s = Some "No tracks available"
                       \/ error s = Some "Could not find a playable track"))
                (fun op s H => apply_flags op s (proj1 H) (proj2 H))
                ops (QuizEngine.new tracks0 p)
                (conj eq_refl (or_introl eq_refl))) as [Hload Herr].
  pose proof (run_preserves (sessionInv tracks0) (apply_sessionInv tracks0)
                ops _ (new_sessionInv tracks0 p)) as (_ & _ & Hcur & _).
  split; [exact Hload |]. split; [| exact Herr].
  destruct (currentTrack _); [exact I | exact Hcur].
Qed.

(** X7. Between two calls the track table is the one the session was made
    with, and the current track, when there is one, is an entry of that
    table. *)
Theorem session_current_track_in_table (tracks0 : list (string * Track.t))
    (p : AudioPlayer.t) (ops : list Session.Operation) :
  tracks (Session.run convertFileSrc ops (QuizEngine.new tracks0 p)) = tracks0
  /\ match currentTrack
             (Session.run convertFileSrc ops (QuizEngine.new tracks0 p)) with
     | Some track => exists k, Map_get tracks0 k = Some track
     | None => True
     end.
Proof.
  pose proof (run_preserves (sessionInv tracks0) (apply_sessionInv tracks0)
                ops _ (new_sessionInv tracks0 p)) as (Htr & _ & Hcur & _).
  split; [exact Htr |].
  destruct (currentTrack _) as [track |]; [| exact I].
  destruct Hcur as (k & _ & Hget). exists k.
  rewrite Htr in Hget. exact Hget.
Qed.

Lemma nextTrack_body_usedInTable (tracks0 : list (string * Track.t))
    (w : Attempt.t) (s s' : QuizEngine.t) :
  (forall k track, Map_get tracks0 k = Some track -> Track.id track = k) ->
  body w s = inl s' \/ body w s = inr s' ->
  usedInTable tracks0 s -> usedInTable tracks0 s'.
Proof.
  intros Hkeyed Hbody [Htr Hused].
  destruct (nextTrack_body_frame w s s' Hbody) as (Htr' & _ & Hused' & _).
  split; [congruence |]. intros id Hid.
  destruct Hused' as [Hu | (track & Hdraw & Hu)]; rewrite Hu in Hid.
  - apply Hused, (draw_used_subset _ _ _ Hid).
  - apply elem_of_union in Hid as [Hid | Hid].
    + apply elem_of_singleton in Hid. subst id.
      apply draw_result_inScope in Hdraw as (k & _ & Hget).
      rewrite Htr in Hget. rewrite (Hkeyed k track Hget), Hget. eauto.
    + apply Hused, (draw_used_subset _ _ _ Hid).
Qed.

Lemma nextTrack_loop_usedInTable (tracks0 : list (string * Track.t))
    (ws : nat -> Attempt.t) (remaining : nat) :
  (forall k track, Map_get tracks0 k = Some track -> Track.id track = k) ->
  forall (attempts : nat) (s : QuizEngine.t),
    usedInTable tracks0 s -> usedInTable tracks0 (loop ws remaining attempts s).
Proof.
  intros Hkeyed.
  induction remaining as [| remaining IH]; intros attempts s Hinv; simpl.
  - exact Hinv.
  - destruct (body (ws attempts) s) as [s' | s'] eqn:Hbody.
    + apply IH, (nextTrack_body_usedInTable tracks0 (ws attempts) s s'); auto.
    + apply (nextTrack_body_usedInTable tracks0 (ws attempts) s s'); auto.
Qed.

Lemma apply_usedInTable (tracks0 : list (string * Track.t))
    (op : Session.Operation) (s : QuizEngine.t) :
  (forall k track, Map_get tracks0 k = Some track -> Track.id track = k) ->
  usedInTable tracks0 s ->
  usedInTable tracks0 (Session.apply convertFileSrc op s).
Proof.
  intros Hkeyed [Htr Hused].
  destruct op; simpl; try (split; assumption).
  - split; [exact Htr |]. intros id Hid. apply elem_of_empty in Hid as [].
  - destruct playlist; (split; [exact Htr |]);
      intros id Hid; apply elem_of_empty in Hid as [].
  - apply (nextTrack_loop_usedInTable tracks0 ws _ Hkeyed).
    split; assumption.
  - unfold reveal. destruct (currentTrack s); split; assumption.
  - destruct (AudioPlayer.updateInterval (player s)); split; assumption.
Qed.

(** X8. When the track table is keyed by the tracks' ids, every id marked
    used is the id of a track of the table, after any sequence of calls on a
    new session. *)
Theorem session_used_ids_in_table (tracks0 : list (string * Track.t))
    (p : AudioPlayer.t) (ops : list Session.Operation)
    (Hkeyed : forall k track,
        Map_get tracks0 k = Some track -> Track.id track = k) :
  forall id,
    id ∈ usedTrackIds (Session.run convertFileSrc ops (QuizEngine.new tracks0 p))
    -> exists track, Map_get tracks0 id = Some track /\ Track.id track = id.
Proof.
  assert (Hnew : usedInTable tracks0 (QuizEngine.new tracks0 p)).
  { split; [reflexivity |]. intros id Hid. apply elem_of_empty in Hid as []. }
  pose proof (run_preserves (usedInTable tracks0)
                (fun op s => apply_usedInTable tracks0 op s Hkeyed)
                ops _ Hnew) as [_ Hused].
  intros id Hid. destruct (Hused id Hid) as [track Hget].
  exists track. split; [exact Hget | exact (Hkeyed id track Hget)].
Qed.

(** X9. The playback state that the session shows is the player's own, and
    the excerpt cap in it is 30 seconds, after any sequence of calls on a
    session made over a player whose cap is 30 (as a new player's is). *)
Theorem session_playback_mirrors_player (tracks0 : list (string * Track.t))
    (p : AudioPlayer.t) (ops : list Session.Operation)
    (Hcap : PlaybackState.maxPlayTime (AudioPlayer.state p) = 30%Q) :
  playbackState (Session.run convertFileSrc ops (QuizEngine.new tracks0 p))
  = AudioPlayer.state
      (player (Session.run convertFileSrc ops (QuizEngine.new tracks0 p)))
  /\ PlaybackState.maxPlayTime
       (playbackState
          (Session.run convertFileSrc ops (QuizEngine.new tracks0 p)))
     = 30%Q.
Proof.
  pose proof (run_preserves (sessionInv tracks0) (apply_sessionInv tracks0)
                ops _ (new_sessionInv tracks0 p)) as (_ & Hpb & _).
  pose proof (run_preserves
                (fun s =>
                   PlaybackState.maxPlayTime (AudioPlayer.state (player s))
                   = 30%Q)
                apply_cap ops (QuizEngine.new tracks0 p) Hcap) as Hcap'.
  split; [exact Hpb | rewrite Hpb; exact Hcap'].
Qed.

#[local] Abbreviation attempts_run := (attemptsFrom convertFileSrc).




End SessionRuns.

Lemma session_used_ids_in_table_witness :
  "1" ∈ QuizEngine.usedTrackIds
          (Session.run (fun path => path) sampleOps
             (QuizEngine.new library3 AudioPlayer.new))
  /\ exists track, Map_get library3 "1" = Some track /\ Track.id track = "1".
Proof.
  assert (Hused : "1" ∈ QuizEngine.usedTrackIds
                          (Session.run (fun path => path) sampleOps
                             (QuizEngine.new library3 AudioPlayer.new))).
  { change ("1" ∈ ({["1"]} : gset string)).
    apply elem_of_singleton. reflexivity. }
  split; [exact Hused |].
  exact (session_used_ids_in_table (fun path => path) library3 AudioPlayer.new
           sampleOps keyedById_session3 "1" Hused).
Defined.

Lemma session_playback_mirrors_player_witness :
  QuizEngine.playbackState
    (Session.run (fun path => path) sampleOps
       (QuizEngine.new library3 AudioPlayer.new))
  = AudioPlayer.state
      (QuizEngine.player
         (Session.run (fun path => path) sampleOps
            (QuizEngine.new library3 AudioPlayer.new)))
  /\ PlaybackState.maxPlayTime
       (QuizEngine.playbackState
          (Session.run (fun path => path) sampleOps
             (QuizEngine.new library3 AudioPlayer.new)))
     = 30%Q.
Proof.
  exact (session_playback_mirrors_player (fun path => path) library3
           AudioPlayer.new sampleOps eq_refl).
Defined.

(** The sample run ends with the dangling reference drawn: the error is set,
    track ["1"] is marked used, and the play button has found nothing to
    play. *)
Example sampleOps_outcome :
  QuizEngine.error
    (Session.run (fun path => path) sampleOps
       (QuizEngine.new library3 AudioPlayer.new))
  = Some "No tracks available"
  /\ QuizEngine.usedTrackIds
       (Session.run (fun path => path) sampleOps
          (QuizEngine.new library3 AudioPlayer.new))
     = {["1"]}
  /\ QuizEngine.currentTrack
       (Session.run (fun path => path) sampleOps
          (QuizEngine.new library3 AudioPlayer.new))
     = None.
Proof. repeat split. Qed.


(** ** Scopes: all tracks, none, and changes of filter *)

Section Scopes.

Import QuizEngine.

Variable convertFileSrc : string -> string.

#[local] Abbreviation body := (nextTrack_body convertFileSrc).
#[local] Abbreviation loop := (nextTrack_loop convertFileSrc).

(** When every active id has an entry and the random values are in [[0,1)],
    the loop never ends for want of a track. *)
Lemma nextTrack_loop_resolving (ws : nat -> Attempt.t) (remaining : nat) :
  (forall j, (0 <= Attempt.randomDraw (ws j))%Q
             /\ (Attempt.randomDraw (ws j) < 1)%Q) ->
  forall (attempts : nat) (s : QuizEngine.t),
    activeTrackIds s <> [] ->
    (forall id, id ∈ activeTrackIds s -> is_Some (Map_get (tracks s) id)) ->
    error s = None ->
    error (loop ws remaining attempts s) <> Some "No tracks available".
Proof.
  intros Hr. induction remaining as [| remaining IH];
    intros attempts s Hne Hres Herr; simpl; [discriminate |].
  assert (Hdraw : is_Some
            (getRandomUnusedTrack (Attempt.randomDraw (ws attempts)) s).2).
  { rewrite getRandomUnusedTrack_spec. simpl.
    destruct (selectedId_is_Some (Attempt.randomDraw (ws attempts)) s)
      as [id Hid]; [apply Hr | apply Hr | exact Hne |].
    rewrite Hid. apply Hres, (selectedId_active _ _ _ Hid). }
  destruct (body (ws attempts) s) as [s' | s'] eqn:Hbody.
  - apply nextTrack_body_inl in Hbody
      as (_ & _ & _ & Ht & Ha & _ & _ & _ & He).
    apply IH; [rewrite Ha; exact Hne | rewrite Ha, Ht; exact Hres | congruence].
  - apply nextTrack_body_inr in Hbody
      as (_ & [(_ & Hnone & _) | (He & _)]).
    + rewrite Hnone in Hdraw. destruct Hdraw as [? Hd]. discriminate Hd.
    + rewrite He, Herr. discriminate.
Qed.

(** X11. Over a non-empty track table and with no playlist filter (a new
    session, or after [setPlaylistFilter(null)]), a call of [nextTrack]
    whose random values are in [[0,1)] never ends with "No tracks
    available": it loads a track or gives up with "Could not find a playable
    track". *)
Theorem nextTrack_all_tracks_scope
    (ws : nat -> Attempt.t) (s0 : QuizEngine.t) (p : AudioPlayer.t)
    (Hne : tracks s0 <> [])
    (Hr : forall j, (0 <= Attempt.randomDraw (ws j))%Q
                    /\ (Attempt.randomDraw (ws j) < 1)%Q) :
  error (nextTrack convertFileSrc ws (setPlaylistFilter None s0))
  <> Some "No tracks available"
  /\ error (nextTrack convertFileSrc ws (QuizEngine.new (tracks s0) p))
     <> Some "No tracks available"
  /\ getActiveTrackCount (setPlaylistFilter None s0) = getTotalTrackCount s0
  /\ getActiveTrackCount (QuizEngine.new (tracks s0) p) = getTotalTrackCount s0.
Proof.
  assert (Hkeys : Map_keys (tracks s0) <> []).
  { unfold Map_keys. destruct (tracks s0); [congruence | discriminate]. }
  split; [| split; [| split]].
  - apply nextTrack_loop_resolving; try assumption; try reflexivity.
    intros id Hid. apply Map_get_is_Some. exact Hid.
  - apply nextTrack_loop_resolving; try assumption; try reflexivity.
    intros id Hid. apply Map_get_is_Some. exact Hid.
  - unfold getActiveTrackCount, getTotalTrackCount, Map_keys. simpl.
    apply length_fmap.
  - unfold getActiveTrackCount, getTotalTrackCount, Map_keys. simpl.
    apply length_fmap.
Qed.

(** X12. With no active id ([setPlaylistFilter] on a playlist without
    tracks, say) [nextTrack] makes no attempt: whatever the collaborators
    would answer, it stops the player, clears the used ids, reports "No
    tracks available", and leaves the current track and the revealed flag as
    they were. *)
Theorem nextTrack_empty_scope (ws : nat -> Attempt.t) (s : QuizEngine.t)
    (Hempty : activeTrackIds s = []) :
  nextTrack convertFileSrc ws s
  = set_isLoading false
      (set_error (Some "No tracks available")
         (set_usedTrackIds ∅ (nextTrack_enter s)))
  /\ currentTrack (nextTrack convertFileSrc ws s) = currentTrack s
  /\ isRevealed (nextTrack convertFileSrc ws s) = isRevealed s
  /\ player (nextTrack convertFileSrc ws s) = AudioPlayer.stop (player s).
Proof.
  assert (Hres : nextTrack convertFileSrc ws s
                 = set_isLoading false
                     (set_error (Some "No tracks available")
                        (set_usedTrackIds ∅ (nextTrack_enter s)))).
  { unfold nextTrack, maxAttempts. simpl. unfold nextTrack_body.
    rewrite getRandomUnusedTrack_spec.
    unfold selectedId, unusedIds. simpl. rewrite Hempty. reflexivity. }
  rewrite Hres. repeat split.
Qed.

(** X13. A filter change forgets what came before it: the session after
    [setPlaylistFilter q] is the same whether or not another filter was set
    or the session was reset just before, and resetting after a filter
    change changes nothing. *)
Theorem setPlaylistFilter_last_wins
    (p q : option PlaylistNode.t) (s : QuizEngine.t) :
  setPlaylistFilter q (setPlaylistFilter p s) = setPlaylistFilter q s
  /\ setPlaylistFilter q (reset s) = setPlaylistFilter q s
  /\ reset (setPlaylistFilter q s) = setPlaylistFilter q s
  /\ reset (reveal s) = reset s.
Proof.
  destruct p, q; repeat split;
    unfold reveal; destruct (currentTrack s); reflexivity.
Qed.

End Scopes.

Lemma nextTrack_all_tracks_scope_witness :
  QuizEngine.error
    (QuizEngine.nextTrack (fun path => path) allMissing
       (QuizEngine.setPlaylistFilter None sessionDangling))
  <> Some "No tracks available".
Proof.
  apply (nextTrack_all_tracks_scope (fun path => path) allMissing
           sessionDangling AudioPlayer.new).
  - discriminate.
  - intros j. split; easy.
Defined.

Lemma nextTrack_empty_scope_witness :
  QuizEngine.error
    (QuizEngine.nextTrack (fun path => path) allPresent
       (QuizEngine.setPlaylistFilter (Some playlistEmpty) session3))
  = Some "No tracks available".
Proof.
  destruct (nextTrack_empty_scope (fun path => path) allPresent
              (QuizEngine.setPlaylistFilter (Some playlistEmpty) session3)
              eq_refl) as [Hres _].
  rewrite Hres. reflexivity.
Defined.

(** ** The player: cap, resume and load *)

Section PlayerCap.

Import AudioPlayer.




End PlayerCap.


(** ** Playing implies sampling *)

Section PlayingImpliesSampling.

Import QuizEngine.

Variable convertFileSrc : string -> string.

Lemma nextTrack_body_sampling (w : Attempt.t) (s s' : QuizEngine.t) :
  nextTrack_body convertFileSrc w s = inl s'
  \/ nextTrack_body convertFileSrc w s = inr s' ->
  samplingWhenPlaying s -> samplingWhenPlaying s'.
Proof.
  unfold samplingWhenPlaying, nextTrack_body.
  rewrite getRandomUnusedTrack_spec.
  destruct (selectedId (Attempt.randomDraw w) s) as [k |];
    [destruct (Map_get (tracks s) k) as [track |];
     [destruct (checkTrackExists w track);
      [unfold AudioPlayer.load;
       destruct (Attempt.metadata w (Track.location track)) |] |] |];
    destruct (unusedIds s); cbn;
    intros [H | H]; inversion H; subst; clear H; cbn;
    try (intros; auto; fail);
    intros _; try destruct (Attempt.playStarted w);
    destruct (player s) as [a st []]; cbn; auto; discriminate.
Qed.

Lemma nextTrack_loop_sampling (ws : nat -> Attempt.t) (remaining : nat) :
  forall (attempts : nat) (s : QuizEngine.t),
    samplingWhenPlaying s ->
    samplingWhenPlaying (nextTrack_loop convertFileSrc ws remaining attempts s).
Proof.
  induction remaining as [| remaining IH]; intros attempts s Hs; simpl.
  - exact Hs.
  - destruct (nextTrack_body convertFileSrc (ws attempts) s) as [s' | s']
      eqn:Hbody.
    + apply IH, (nextTrack_body_sampling (ws attempts) s s'); auto.
    + apply (nextTrack_body_sampling (ws attempts) s s'); auto.
Qed.

Lemma apply_sampling (op : Session.Operation) (s : QuizEngine.t) :
  samplingWhenPlaying s ->
  samplingWhenPlaying (Session.apply convertFileSrc op s).
Proof.
  intros Hs.
  destruct op;
    try (apply nextTrack_loop_sampling; intros H; discriminate H);
    unfold samplingWhenPlaying in *;
    destruct s as [tr act cur rev ld er pb us [a [playing c d o m] ui]];
    simpl in *; try discriminate; try exact Hs; try reflexivity.
  - destruct cur; exact Hs.
  - unfold AudioPlayer.toggle, AudioPlayer.play, AudioPlayer.handlePlay,
      AudioPlayer.startUpdateLoop; simpl.
    destruct playing, started, ui; simpl; auto.
  - destruct ui; reflexivity.
  - destruct ui; discriminate.
  - destruct ui; discriminate.
  - destruct ui; discriminate.
  - destruct ui; simpl; [| exact Hs].
    unfold AudioPlayer.tick; simpl. destruct (Qle_bool _ _); simpl; auto.
Qed.

(** X16. Whenever the session shows playback as running, the player's
    sampling loop is on, so the cap is being watched: this holds after any
    sequence of calls, events and ticks on a session made over a player of
    which it holds (a new player is not playing). *)
Theorem session_sampling_when_playing (tracks0 : list (string * Track.t))
    (p : AudioPlayer.t) (ops : list Session.Operation)
    (Hp : PlaybackState.isPlaying (AudioPlayer.state p) = true ->
          AudioPlayer.updateInterval p = true) :
  PlaybackState.isPlaying
    (playbackState (Session.run convertFileSrc ops (QuizEngine.new tracks0 p)))
  = true ->
  AudioPlayer.updateInterval
    (player (Session.run convertFileSrc ops (QuizEngine.new tracks0 p)))
  = true.
Proof.
  pose proof (run_preserves convertFileSrc (sessionInv tracks0)
                (apply_sessionInv convertFileSrc tracks0)
                ops _ (new_sessionInv tracks0 p)) as (_ & Hpb & _).
  pose proof (run_preserves convertFileSrc samplingWhenPlaying apply_sampling
                ops (QuizEngine.new tracks0 p) Hp) as Hs.
  rewrite Hpb. exact Hs.
Qed.

End PlayingImpliesSampling.

Lemma session_sampling_when_playing_witness :
  AudioPlayer.updateInterval
    (QuizEngine.player
       (Session.run (fun path => path) [Session.NextTrack allPresent]
          (QuizEngine.new library3 AudioPlayer.new)))
  = true.
Proof.
  apply (session_sampling_when_playing (fun path => path) library3
           AudioPlayer.new [Session.NextTrack allPresent]).
  - discriminate.
  - reflexivity.
Defined.

(** ** The player's view *)

Section PlayerViewBounds.

Import PlayerView.
Import Stdlib.Strings.Ascii.

Lemma Qfloor_unique (x : Q) (z : Z) :
  (inject_Z z <= x)%Q -> (x < inject_Z (z + 1))%Q -> Qfloor x = z.
Proof.
  intros Hlo Hhi.
  pose proof (Qfloor_le x) as Hfl. pose proof (Qlt_floor x) as Hfh.
  assert (H1 : (z < Qfloor x + 1)%Z).
  { rewrite Zlt_Qlt. eapply Qle_lt_trans; eassumption. }
  assert (H2 : (Qfloor x < z + 1)%Z).
  { rewrite Zlt_Qlt. eapply Qle_lt_trans; eassumption. }
  lia.
Qed.

(** Whole minutes and the seconds left over, for a time that is not
    negative. *)
Lemma whole_minutes_seconds (s : Q) :
  (0 <= s)%Q ->
  Qfloor (s / 60) = (Qfloor s / 60)%Z
  /\ Qfloor (Number_rem s 60) = (Qfloor s mod 60)%Z.
Proof.
  intros Hs.
  pose proof (Qfloor_le s) as Hfl. pose proof (Qlt_floor s) as Hfh.
  pose proof (Z.div_mod (Qfloor s) 60 ltac:(lia)) as Hdm.
  pose proof (Z.mod_pos_bound (Qfloor s) 60 ltac:(lia)) as Hmod.
  generalize dependent (Qfloor s mod 60)%Z. intros r.
  generalize dependent (Qfloor s / 60)%Z. intros q.
  generalize dependent (Qfloor s). intros n Hfl Hfh Hdm Hmod.
  assert (Hn : (inject_Z n == 60 * inject_Z q + inject_Z r)%Q).
  { rewrite Hdm, inject_Z_plus, inject_Z_mult. reflexivity. }
  assert (Hr0 : (0 <= inject_Z r)%Q) by (unfold Qle; simpl; lia).
  assert (Hr1 : (inject_Z r <= 59)%Q) by (unfold Qle; simpl; lia).
  rewrite inject_Z_plus in Hfh. change (inject_Z 1) with 1%Q in Hfh.
  generalize dependent (inject_Z n). intros qn Hfl Hfh Hn.
  assert (Hq : Qfloor (s / 60) = q).
  { apply Qfloor_unique; rewrite ?inject_Z_plus;
      change (inject_Z 1) with 1%Q.
    - apply Qle_shift_div_l; [reflexivity |].
      generalize dependent (inject_Z q). generalize dependent (inject_Z r).
      intros. lra.
    - apply Qlt_shift_div_r; [reflexivity |].
      generalize dependent (inject_Z q). generalize dependent (inject_Z r).
      intros. lra. }
  split; [exact Hq |].
  unfold Number_rem, Number_trunc.
  assert (Hpos : Qle_bool 0 (s / 60) = true).
  { apply Qle_bool_iff. apply Qle_shift_div_l; [reflexivity | lra]. }
  rewrite Hpos, Hq.
  apply Qfloor_unique; rewrite ?inject_Z_plus; change (inject_Z 1) with 1%Q;
    generalize dependent (inject_Z q); generalize dependent (inject_Z r);
    intros; lra.
Qed.

Lemma two_digits (r : Z) :
  (0 <= r < 60)%Z ->
  padStart 2 "0"%char (pretty r)
  = (if (r <? 10)%Z then "0" else "") +:+ pretty r
  /\ String.length (padStart 2 "0"%char (pretty r)) = 2%nat.
Proof.
  intros Hr. rewrite <- (Z2Nat.id r) by lia.
  assert (Hn : (Z.to_nat r < 60)%nat) by lia.
  revert Hn. generalize (Z.to_nat r). clear Hr r. intros n Hn.
  do 60 (destruct n as [| n]; [split; reflexivity |]). lia.
Qed.

(** X17. For a time that is a binary64 number, not negative and below
    [2^53] seconds, [formatTime] prints the whole minutes, a colon and the
    seconds left over as exactly two digits, a leading zero included: the
    rounded quotient by 60 has the integer part of the exact one. *)
Theorem formatTime_minutes_and_two_digits (seconds : Q)
    (Hnumber : (Binary64.round seconds == seconds)%Q)
    (Hnonneg : (0 <= seconds)%Q)
    (Hbound : (seconds < inject_Z (2 ^ 53))%Q) :
  formatTime seconds
  = Some (pretty (Qfloor seconds / 60)%Z +:+ ":"
          +:+ (if (Qfloor seconds mod 60 <? 10)%Z then "0" else "")
          +:+ pretty (Qfloor seconds mod 60)%Z)
  /\ Qfloor (Binary64.div seconds 60) = (Qfloor seconds / 60)%Z
  /\ String.length (padStart 2 "0"%char (pretty (Qfloor (Number_rem seconds 60))))
     = 2%nat.
Proof.
  destruct (whole_minutes_seconds seconds Hnonneg) as [Hm Hs].
  pose proof (div_60_floor seconds Hnumber Hnonneg Hbound) as Hdiv.
  rewrite Hm in Hdiv.
  pose proof (Z.mod_pos_bound (Qfloor seconds) 60 ltac:(lia)) as Hmod.
  destruct (two_digits (Qfloor seconds mod 60) Hmod) as [Hpad Hlen].
  assert (Hfl0 : (0 <= Qfloor seconds)%Z) by (apply Qfloor_ge; exact Hnonneg).
  assert (Hfl1 : (Qfloor seconds < 2 ^ 53)%Z) by (apply Qfloor_lt; exact Hbound).
  assert (Hmins : Number_toString (Qfloor seconds / 60)
                  = Some (pretty (Qfloor seconds / 60)%Z)).
  { unfold Number_toString.
    assert (Hq : (0 <= Qfloor seconds / 60 <= Qfloor seconds)%Z).
    { split; [apply Z.div_pos; lia |].
      apply Z.div_le_upper_bound; lia. }
    replace (Z.abs (Qfloor seconds / 60) <=? 2 ^ 53)%Z with true;
      [reflexivity |].
    symmetry. apply Z.leb_le. lia. }
  assert (Hsecs : Number_toString (Qfloor seconds mod 60)
                  = Some (pretty (Qfloor seconds mod 60)%Z)).
  { unfold Number_toString.
    replace (Z.abs (Qfloor seconds mod 60) <=? 2 ^ 53)%Z with true;
      [reflexivity |].
    symmetry. apply Z.leb_le. lia. }
  split; [| split; [exact Hdiv | rewrite Hs; exact Hlen]].
  unfold formatTime. rewrite Hdiv, Hs, Hmins, Hsecs, Hpad. reflexivity.
Qed.


(** X19. The progress bar never divides by a cap that is not positive: it
    shows zero then, whatever the elapsed time. With a positive cap, an
    elapsed time between zero and the cap gives a width between 0 and 100
    percent, 100 is reached exactly at the cap, and an elapsed time beyond
    the cap gives more than 100. *)
Theorem progress_within_bar (playbackState : PlaybackState.t) :
  ((PlaybackState.maxPlayTime playbackState <= 0)%Q ->
   progress playbackState = 0%Q)
  /\ ((0 < PlaybackState.maxPlayTime playbackState)%Q ->
      (0 <= PlaybackState.currentTime playbackState)%Q ->
      (PlaybackState.currentTime playbackState
       <= PlaybackState.maxPlayTime playbackState)%Q ->
      (0 <= progress playbackState)%Q /\ (progress playbackState <= 100)%Q)
  /\ ((0 < PlaybackState.maxPlayTime playbackState)%Q ->
      (PlaybackState.currentTime playbackState
       == PlaybackState.maxPlayTime playbackState)%Q ->
      (progress playbackState == 100)%Q)
  /\ ((0 < PlaybackState.maxPlayTime playbackState)%Q ->
      (PlaybackState.maxPlayTime playbackState
       < PlaybackState.currentTime playbackState)%Q ->
      (100 < progress playbackState)%Q).
Proof.
  destruct playbackState as [playing elapsed duration offset cap].
  unfold progress. simpl.
  destruct (Qle_bool cap 0) eqn:Hle; simpl.
  - apply Qle_bool_iff in Hle.
    split; [reflexivity |].
    split; [intros Hpos; lra |]. split; intros Hpos; lra.
  - assert (Hpos : (0 < cap)%Q).
    { apply Qnot_le_lt. intros H. apply Qle_bool_iff in H. congruence. }
    split; [intros Hneg; lra |]. split; [| split].
    + intros _ Helapsed Hcap.
      assert (Hratio0 : (0 <= elapsed / cap)%Q)
        by (apply Qle_shift_div_l; [exact Hpos | lra]).
      assert (Hratio1 : (elapsed / cap <= 1)%Q)
        by (apply Qle_shift_div_r; [exact Hpos | lra]).
      split; lra.
    + intros _ Heq. rewrite Heq. field. lra.
    + intros _ Hover.
      assert (Hratio : (1 < elapsed / cap)%Q)
        by (apply Qlt_shift_div_l; [exact Hpos | lra]).
      lra.
Qed.

End PlayerViewBounds.

Lemma formatTime_minutes_and_two_digits_witness :
  PlayerView.formatTime (131 # 2) = Some "1:05"
  /\ PlayerView.formatTime 30 = Some "0:30".
Proof.
  assert (Hn1 : (Binary64.round (131 # 2) == 131 # 2)%Q)
    by (vm_compute; reflexivity).
  assert (Hn2 : (Binary64.round 30 == 30)%Q) by (vm_compute; reflexivity).
  assert (H1 : (0 <= 131 # 2)%Q) by (vm_compute; discriminate).
  assert (H2 : (0 <= 30)%Q) by (vm_compute; discriminate).
  assert (B1 : (131 # 2 < inject_Z (2 ^ 53))%Q) by (vm_compute; reflexivity).
  assert (B2 : (30 < inject_Z (2 ^ 53))%Q) by (vm_compute; reflexivity).
  pose proof (proj1 (formatTime_minutes_and_two_digits (131 # 2) Hn1 H1 B1))
    as F1.
  pose proof (proj1 (formatTime_minutes_and_two_digits 30 Hn2 H2 B2)) as F2.
  split.
  - etransitivity; [exact F1 |]. vm_compute. reflexivity.
  - etransitivity; [exact F2 |]. vm_compute. reflexivity.
Defined.


Lemma progress_within_bar_witness :
  (PlayerView.progress (PlaybackState.mk true 15 200 100 30) == 50)%Q
  /\ (PlayerView.progress (PlaybackState.mk true 15 200 100 30) <= 100)%Q
  /\ PlayerView.progress (PlaybackState.mk false 15 200 100 (-1)) = 0%Q.
Proof.
  destruct (progress_within_bar (PlaybackState.mk true 15 200 100 30))
    as (_ & H & _).
  destruct (progress_within_bar (PlaybackState.mk false 15 200 100 (-1)))
    as (Hzero & _).
  split; [reflexivity |].
  split; [apply H; vm_compute; (reflexivity || discriminate) |].
  apply Hzero. vm_compute. discriminate.
Defined.

(** ** Rounds within a cycle, and the budget *)

Section Rounds.

Import QuizEngine.

Variable convertFileSrc : string -> string.

#[local] Abbreviation body := (nextTrack_body convertFileSrc).
#[local] Abbreviation loop := (nextTrack_loop convertFileSrc).
#[local] Abbreviation attempts_run := (attemptsFrom convertFileSrc).



End Rounds.


(** ** A round overtaken by a change of filter *)

Section Overtaken.

Import QuizEngine.

Variable convertFileSrc : string -> string.

(** An iteration of the retry loop is the draw followed by the rest of the
    iteration on the session the draw has left. *)
Lemma nextTrack_body_afterCheck (w : Attempt.t) (s : QuizEngine.t) :
  nextTrack_body convertFileSrc w s
  = match (getRandomUnusedTrack (Attempt.randomDraw w) s).2 with
    | Some track =>
        nextTrack_afterCheck convertFileSrc w track
          (getRandomUnusedTrack (Attempt.randomDraw w) s).1
    | None =>
        inr (set_isLoading false
               (set_error (Some "No tracks available")
                  (getRandomUnusedTrack (Attempt.randomDraw w) s).1))
    end.
Proof.
  unfold nextTrack_body, nextTrack_afterCheck.
  destruct (getRandomUnusedTrack (Attempt.randomDraw w) s) as [s1 [track |]];
    reflexivity.
Qed.

(** X21. Calls made while [nextTrack] awaits the file check do not cancel
    it. When the check and the load then succeed, the resumed call makes the
    candidate it drew before the suspension the current track and adds its
    id to the used ids, on whatever session the other calls have left, and
    leaves the active ids alone. After a [setPlaylistFilter] in between, the
    session so shows a track drawn from the old scope with its id as the
    only used id, whether or not the new scope has it. *)
Theorem nextTrack_resumed_after_filter_change
    (ws : nat -> Attempt.t) (attempts : nat) (track : Track.t) (d : Q)
    (playlist : option PlaylistNode.t) (s : QuizEngine.t)
    (Hexists : checkTrackExists (ws attempts) track = true)
    (Hmeta : Attempt.metadata (ws attempts) (Track.location track) = Some d) :
  currentTrack (nextTrack_resume convertFileSrc ws attempts track s)
  = Some track
  /\ usedTrackIds (nextTrack_resume convertFileSrc ws attempts track s)
     = {[Track.id track]} ∪ usedTrackIds s
  /\ activeTrackIds (nextTrack_resume convertFileSrc ws attempts track s)
     = activeTrackIds s
  /\ tracks (nextTrack_resume convertFileSrc ws attempts track s) = tracks s
  /\ isLoading (nextTrack_resume convertFileSrc ws attempts track s) = false
  /\ error (nextTrack_resume convertFileSrc ws attempts track s) = error s
  /\ usedTrackIds
       (nextTrack_resume convertFileSrc ws attempts track
          (setPlaylistFilter playlist s))
     = {[Track.id track]}
  /\ activeTrackIds
       (nextTrack_resume convertFileSrc ws attempts track
          (setPlaylistFilter playlist s))
     = match playlist with
       | Some node => getAllTrackIdsFromPlaylist node
       | None => Map_keys (tracks s)
       end.
Proof.
  assert (Hgen : forall s0,
            currentTrack (nextTrack_resume convertFileSrc ws attempts track s0)
            = Some track
            /\ usedTrackIds
                 (nextTrack_resume convertFileSrc ws attempts track s0)
               = {[Track.id track]} ∪ usedTrackIds s0
            /\ activeTrackIds
                 (nextTrack_resume convertFileSrc ws attempts track s0)
               = activeTrackIds s0
            /\ tracks (nextTrack_resume convertFileSrc ws attempts track s0)
               = tracks s0
            /\ isLoading
                 (nextTrack_resume convertFileSrc ws attempts track s0)
               = false
            /\ error (nextTrack_resume convertFileSrc ws attempts track s0)
               = error s0).
  { intros s0. unfold nextTrack_resume, nextTrack_afterCheck.
    rewrite Hexists. simpl. unfold AudioPlayer.load. rewrite Hmeta.
    repeat split. }
  destruct (Hgen s) as (Hc & Hu & Ha & Ht & Hl & He).
  destruct (Hgen (setPlaylistFilter playlist s)) as (_ & Hu' & Ha' & _).
  repeat (split; [assumption |]).
  split.
  - rewrite Hu'. destruct playlist; apply union_empty_r_L.
  - rewrite Ha'. destruct playlist; reflexivity.
Qed.

End Overtaken.

(** Track ["2"] is drawn from the three tracks; the filter changes to the
    playlist with track ["1"] only while the file check is pending; the
    resumed call puts track ["2"] on display, outside the active ids. *)
Lemma nextTrack_resumed_after_filter_change_witness :
  (QuizEngine.getRandomUnusedTrack (1 # 2)
     (QuizEngine.nextTrack_enter session3)).2 = Some trackB
  /\ QuizEngine.currentTrack
       (nextTrack_resume (fun path => path) allPresent 0 trackB
          (QuizEngine.setPlaylistFilter (Some playlistOnlyA)
             (QuizEngine.nextTrack_enter session3)))
     = Some trackB
  /\ QuizEngine.activeTrackIds
       (nextTrack_resume (fun path => path) allPresent 0 trackB
          (QuizEngine.setPlaylistFilter (Some playlistOnlyA)
             (QuizEngine.nextTrack_enter session3)))
     = ["1"]
  /\ QuizEngine.usedTrackIds
       (nextTrack_resume (fun path => path) allPresent 0 trackB
          (QuizEngine.setPlaylistFilter (Some playlistOnlyA)
             (QuizEngine.nextTrack_enter session3)))
     = {["2"]}.
Proof.
  split; [reflexivity |].
  destruct (nextTrack_resumed_after_filter_change (fun path => path)
              allPresent 0 trackB 200 (Some playlistOnlyA)
              (QuizEngine.nextTrack_enter session3) eq_refl eq_refl)
    as (Hc & _ & _ & _ & _ & _ & Hu & Ha).
  pose proof (nextTrack_resumed_after_filter_change (fun path => path)
                allPresent 0 trackB 200 None
                (QuizEngine.setPlaylistFilter (Some playlistOnlyA)
                   (QuizEngine.nextTrack_enter session3)) eq_refl eq_refl)
    as (Hc' & _).
  split; [exact Hc' |]. split; [exact Ha |]. exact Hu.
Defined.
